(** * go-manage: unit conversion, balance query and transfer pipeline

    A shallow embedding of [main.go] and [token/token.go].  The Go
    standard-library operations the program calls ([float64] arithmetic,
    [math/big], [strconv], [fmt]) are modelled by exact integer arithmetic
    on [Z]; the node, the key store and the ABI encoder are capabilities
    passed in as records of functions, and every call to one of them is
    logged in a trace. *)

From Stdlib Require Import ZArith List String Ascii Bool Lia.
From Stdlib Require Import Floats.SpecFloat.
Import ListNotations.
Open Scope Z_scope.

(** ** Rounding of exact quotients *)

Module Rounding.

(** [a / b] rounded to the nearest integer, ties to the even one
    ([0 <= a], [0 < b]). *)
Definition div_rne (a b : Z) : Z :=
  let q := a / b in
  match 2 * (a mod b) ?= b with
  | Lt => q
  | Gt => q + 1
  | Eq => if Z.even q then q else q + 1
  end.

(** [floor (log2 (a / b))] for positive [a] and [b]. *)
Definition ratio_log2 (a b : Z) : Z :=
  let d := Z.log2 a - Z.log2 b in
  if a * 2 ^ Z.max 0 (- d) <? b * 2 ^ Z.max 0 d then d - 1 else d.

(** [(a / b) / 2 ^ e], rounded to the nearest integer, ties to even. *)
Definition scaled_rne (a b e : Z) : Z :=
  div_rne (a * 2 ^ Z.max 0 (- e)) (b * 2 ^ Z.max 0 e).

(** The exponent of the unit in the last place of a [p]-bit significand
    holding [a / b]; [emin], when given, is the least exponent (gradual
    underflow). *)
Definition ulp_exp (p : Z) (emin : option Z) (a b : Z) : Z :=
  let e := ratio_log2 a b + 1 - p in
  match emin with
  | Some lo => Z.max e lo
  | None => e
  end.

(** [a / b] rounded to [p] significant bits, to nearest, ties to even:
    the result [(m, e)] stands for [m * 2 ^ e] with [m < 2 ^ p]. *)
Definition round_ratio (p : Z) (emin : option Z) (a b : Z) : Z * Z :=
  let e := ulp_exp p emin a b in
  let m := scaled_rne a b e in
  if m =? 2 ^ p then (2 ^ (p - 1), e + 1) else (m, e).

(** [m * 2 ^ e] as a fraction. *)
Definition dyadic_num (m e : Z) : Z := m * 2 ^ Z.max 0 e.
Definition dyadic_den (e : Z) : Z := 2 ^ Z.max 0 (- e).

(** [2 ^ k <= a / b], without fractions. *)
Definition ge_pow2 (a b k : Z) : Prop :=
  b * 2 ^ Z.max 0 k <= a * 2 ^ Z.max 0 (- k).

(** [a / b = m * 2 ^ e], without fractions. *)
Definition is_dyadic (a b m e : Z) : Prop :=
  a * dyadic_den e = b * dyadic_num m e.

End Rounding.

(** ** float64: IEEE 754 binary64, on the Standard Library's [spec_float] *)

Module Float64.
Import Rounding.

Definition float64 := spec_float.

Definition prec : Z := 53.
Definition emax : Z := 1024.
(** Least exponent of a significand (subnormals) and greatest. *)
Definition emin : Z := -1074.
Definition etop : Z := 971.

(** The binary64 nearest to [(-1)^s * a / b] ([0 <= a], [0 < b]).  *)
Definition of_ratio (s : bool) (a b : Z) : float64 :=
  if a =? 0 then S754_zero s
  else
    let '(m, e) := round_ratio prec (Some emin) a b in
    match m with
    | Zpos mp => if e <=? etop then S754_finite s mp e else S754_infinity s
    | _ => S754_zero s
    end.

(** [float64(i)] for an integer [i]. *)
Definition of_int (i : Z) : float64 :=
  if i =? 0 then S754_zero false else of_ratio (i <? 0) (Z.abs i) 1.

(** [x * y]. *)
Definition mul (x y : float64) : float64 :=
  match x, y with
  | S754_nan, _ | _, S754_nan => S754_nan
  | S754_infinity sx, S754_infinity sy => S754_infinity (xorb sx sy)
  | S754_infinity sx, S754_finite sy _ _ => S754_infinity (xorb sx sy)
  | S754_finite sx _ _, S754_infinity sy => S754_infinity (xorb sx sy)
  | S754_infinity _, S754_zero _ => S754_nan
  | S754_zero _, S754_infinity _ => S754_nan
  | S754_finite sx _ _, S754_zero sy => S754_zero (xorb sx sy)
  | S754_zero sx, S754_finite sy _ _ => S754_zero (xorb sx sy)
  | S754_zero sx, S754_zero sy => S754_zero (xorb sx sy)
  | S754_finite sx mx ex, S754_finite sy my ey =>
      of_ratio (xorb sx sy)
        (dyadic_num (Zpos mx * Zpos my) (ex + ey)) (dyadic_den (ex + ey))
  end.

(** [x / y]. *)
Definition div (x y : float64) : float64 :=
  match x, y with
  | S754_nan, _ | _, S754_nan => S754_nan
  | S754_infinity _, S754_infinity _ => S754_nan
  | S754_zero _, S754_zero _ => S754_nan
  | S754_infinity sx, S754_finite sy _ _ => S754_infinity (xorb sx sy)
  | S754_infinity sx, S754_zero sy => S754_infinity (xorb sx sy)
  | S754_finite sx _ _, S754_infinity sy => S754_zero (xorb sx sy)
  | S754_zero sx, S754_infinity sy => S754_zero (xorb sx sy)
  | S754_finite sx _ _, S754_zero sy => S754_infinity (xorb sx sy)
  | S754_zero sx, S754_finite sy _ _ => S754_zero (xorb sx sy)
  | S754_finite sx mx ex, S754_finite sy my ey =>
      of_ratio (xorb sx sy)
        (dyadic_num (Zpos mx) ex * dyadic_den ey)
        (dyadic_den ex * dyadic_num (Zpos my) ey)
  end.

(** The integer part of a finite [x] (truncation toward zero). *)
Definition trunc (x : float64) : option Z :=
  match x with
  | S754_zero _ => Some 0
  | S754_finite s m e =>
      Some (cond_Zopp s (if 0 <=? e then Zpos m * 2 ^ e else Zpos m / 2 ^ (- e)))
  | _ => None
  end.

(** [x] is zero or a finite number of sign [s] and magnitude at most
    [c]. *)
Definition bounded_by (s : bool) (c : Z) (x : float64) : Prop :=
  match x with
  | S754_zero _ => True
  | S754_finite s' m e => s' = s /\ dyadic_num (Zpos m) e <= c * dyadic_den e
  | _ => False
  end.

End Float64.

(** ** Decimal text *)

Module Text.

Definition digit_char (d : Z) : ascii := ascii_of_nat (48 + Z.to_nat d).

(** The decimal digits of [n], most significant first, in front of [acc]. *)
Fixpoint digits_onto (fuel : nat) (n : Z) (acc : list ascii) : list ascii :=
  match fuel with
  | O => acc
  | S fuel' =>
      let acc' := digit_char (n mod 10) :: acc in
      if n <? 10 then acc' else digits_onto fuel' (n / 10) acc'
  end.

(** [n] in decimal, for [0 <= n]: ["0"] for zero, no leading zero
    otherwise. *)
Definition digits (n : Z) : list ascii :=
  digits_onto (S (Z.to_nat (Z.log2 n))) n [].

(** The [k] low decimal digits of [n], zero-padded on the left. *)
Fixpoint low_digits (k : nat) (n : Z) (acc : list ascii) : list ascii :=
  match k with
  | O => acc
  | S k' => low_digits k' (n / 10) (digit_char (n mod 10) :: acc)
  end.

(** Fixed-point text of [n / 10 ^ k]: the integer digits and, when
    [0 < k], a point and exactly [k] fraction digits. *)
Definition fixed (n : Z) (k : Z) : list ascii :=
  digits (n / 10 ^ k) ++
  (if 0 <? k then "."%char :: low_digits (Z.to_nat k) (n mod 10 ^ k) [] else []).

(** The characters after the first ["."] of [s], if there is one. *)
Fixpoint after_point (s : list ascii) : option (list ascii) :=
  match s with
  | [] => None
  | c :: s' => if Ascii.eqb c "."%char then Some s' else after_point s'
  end.

Definition is_digit (c : ascii) : bool :=
  let n := Z.of_nat (nat_of_ascii c) in (48 <=? n) && (n <=? 57).

Definition digit_val (c : ascii) : Z := Z.of_nat (nat_of_ascii c) - 48.

(** Reads the longest prefix of decimal digits: the value read so far
    ([acc]), the number of digits read and the unread rest. *)
Fixpoint scan_digits (s : list ascii) (acc : Z) (count : nat)
  : Z * nat * list ascii :=
  match s with
  | c :: s' =>
      if is_digit c then scan_digits s' (acc * 10 + digit_val c) (S count)
      else (acc, count, s)
  | [] => (acc, count, [])
  end.

End Text.

(** ** Outcomes of Go calls that may panic *)

(** A call returns, panics, or leaves the modelled fragment of the
    library ([Unmodelled]: the call is defined in Go, its result is not
    described here). *)
Inductive run (A : Type) : Type :=
| Done (a : A)
| Panic (msg : string)
| Unmodelled (what : string).
Arguments Done {A} a.
Arguments Panic {A} msg.
Arguments Unmodelled {A} what.

Definition run_bind {A B} (r : run A) (k : A -> run B) : run B :=
  match r with
  | Done a => k a
  | Panic msg => Panic msg
  | Unmodelled w => Unmodelled w
  end.

Declare Scope run_scope.
Delimit Scope run_scope with run.
Notation "x <- r ;; k" := (run_bind r (fun x => k))
  (at level 61, r at next level, right associativity) : run_scope.

(** ** strconv and fmt on float64 *)

Module Strconv.
Import Rounding Float64 Text.

(** [strconv.FormatFloat(x, 'f', prec, 64)] for [0 <= prec]: the exact
    binary value in decimal, rounded half-to-even at [prec] fraction
    digits. *)
Definition FormatFloat_f (x : float64) (prec : Z) : string :=
  match x with
  | S754_nan => "NaN"
  | S754_infinity false => "+Inf"
  | S754_infinity true => "-Inf"
  | S754_zero s =>
      string_of_list_ascii ((if s then ["-"%char] else []) ++ fixed 0 prec)
  | S754_finite s m e =>
      let n := div_rne (dyadic_num (Zpos m) e * 10 ^ prec) (dyadic_den e) in
      string_of_list_ascii ((if s then ["-"%char] else []) ++ fixed n prec)
  end.

(** [fmt.Sprintf("%f", x)]: six fraction digits. *)
Definition Sprintf_f (x : float64) : string := FormatFloat_f x 6.

(** [strconv.ParseFloat(s, 64)] on plain decimal text,
    [[+-]digits[.digits]] with at least one digit: the binary64 nearest
    to the decimal value.  Exponents, hexadecimal forms, underscores and
    the spellings of infinity and NaN are outside this fragment
    ([None]). *)
Definition ParseFloat (s : string) : option float64 :=
  let cs := list_ascii_of_string s in
  let '(neg, cs1) :=
    match cs with
    | c :: r =>
        if Ascii.eqb c "-"%char then (true, r)
        else if Ascii.eqb c "+"%char then (false, r)
        else (false, cs)
    | [] => (false, cs)
    end in
  let '(ip, ni, rest) := scan_digits cs1 0 0 in
  match rest with
  | [] => if Nat.eqb ni 0 then None else Some (of_ratio neg ip 1)
  | c :: r =>
      if Ascii.eqb c "."%char then
        let '(m, nf, rest') := scan_digits r ip 0 in
        match rest' with
        | [] =>
            if Nat.eqb (ni + nf) 0 then None
            else Some (of_ratio neg m (10 ^ Z.of_nat nf))
        | _ => None
        end
      else None
  end.

End Strconv.

(** ** math: Pow10 *)

Module Math.
Import Float64.

(** [pow10tab[i]], the constant [1e i] for [0 <= i < 32]. *)
Definition pow10tab (i : Z) : float64 := of_ratio false (10 ^ i) 1.
(** [pow10postab32[i]], the constant [1e(32 i)]. *)
Definition pow10postab32 (i : Z) : float64 := of_ratio false (10 ^ (32 * i)) 1.
(** [pow10negtab32[i]], the constant [1e-(32 i)]. *)
Definition pow10negtab32 (i : Z) : float64 := of_ratio false 1 (10 ^ (32 * i)).

(** [math.Pow10(n)]. *)
Definition Pow10 (n : Z) : float64 :=
  if (0 <=? n) && (n <=? 308) then
    mul (pow10postab32 (n / 32)) (pow10tab (n mod 32))
  else if (-323 <=? n) && (n <=? 0) then
    div (pow10negtab32 ((- n) / 32)) (pow10tab ((- n) mod 32))
  else if 0 <? n then S754_infinity false
  else S754_zero false.

End Math.

(** ** math/big: Int *)

Module BigInt.
Import Text.

(** [z.SetString(s, 10)] on a fresh [z]: the value [z] holds afterwards
    and the [ok] flag.  In math/big, [SetString] runs [Int.scan], which
    reads an optional sign and the longest prefix of digits and assigns
    that value to the receiver ([z.abs, ... = z.abs.scan(...)]); only
    then does [setFromScanner] look for input left over, and it returns
    [nil, false] when there is some, or when no digit was read, without
    restoring [z].  The documentation calls [z] undefined after a
    failure; this is what the implementation leaves in it. *)
Definition SetString (s : string) : Z * bool :=
  match list_ascii_of_string s with
  | [] => (0, false)
  | c :: r =>
      let '(neg, cs) :=
        if Ascii.eqb c "-"%char then (true, r)
        else if Ascii.eqb c "+"%char then (false, r)
        else (false, c :: r) in
      let '(v, count, rest) := scan_digits cs 0 0 in
      if Nat.eqb count 0 then (0, false)
      else
        (if neg then - v else v,
         match rest with [] => true | _ => false end)
  end.

(** [z.SetBytes(buf)]: [buf] read as a big-endian unsigned integer. *)
Definition SetBytes (buf : list Z) : Z :=
  fold_left (fun acc b => acc * 256 + b) buf 0.

End BigInt.

(** ** math/big: Float *)

Module BigFloat.
Import Rounding Float64 Text.
Local Open Scope run_scope.

(** The value of a [big.Float]: [finite m e] stands for [m * 2 ^ e], with
    [m] of exactly [prec] bits.  The exponent range of [big.Float]
    (32 bits) is not modelled: no value of this program comes near it. *)
Inductive form : Type :=
| zero
| finite (mant : positive) (exp : Z)
| inf.

Record Float : Type := { prec : Z; neg : bool; val : form }.

(** [new(big.Float)]: precision 0, value 0. *)
Definition new : Float := {| prec := 0; neg := false; val := zero |}.

(** [a / b] ([0 <= a], [0 < b]) rounded to [p] bits, ToNearestEven. *)
Definition round (p : Z) (a b : Z) : form :=
  if a =? 0 then zero
  else
    match round_ratio p None a b with
    | (Zpos m, e) => finite m e
    | _ => zero
    end.

(** [x.BitLen()]. *)
Definition BitLen (x : Z) : Z := if x =? 0 then 0 else Z.log2 (Z.abs x) + 1.

(** [z.SetInt(x)]: a receiver of precision 0 takes
    [max(x.BitLen(), 64)]. *)
Definition SetInt (z : Float) (x : Z) : Float :=
  let p := if prec z =? 0 then Z.max (BitLen x) 64 else prec z in
  {| prec := p; neg := x <? 0; val := round p (Z.abs x) 1 |}.

(** [z.SetFloat64(x)]: a receiver of precision 0 takes 53; NaN panics. *)
Definition SetFloat64 (z : Float) (x : float64) : run Float :=
  let p := if prec z =? 0 then 53 else prec z in
  match x with
  | S754_nan => Panic "Float.SetFloat64(NaN)"
  | S754_zero s => Done {| prec := p; neg := s; val := zero |}
  | S754_infinity s => Done {| prec := p; neg := s; val := inf |}
  | S754_finite s m e =>
      Done {| prec := p; neg := s;
              val := round p (dyadic_num (Zpos m) e) (dyadic_den e) |}
  end.

(** [z.Mul(x, y)]: a receiver of precision 0 takes the larger operand
    precision; zero times infinity panics. *)
Definition Mul (z x y : Float) : run Float :=
  let p := if prec z =? 0 then Z.max (prec x) (prec y) else prec z in
  let s := xorb (neg x) (neg y) in
  match val x, val y with
  | finite mx ex, finite my ey =>
      Done {| prec := p; neg := s;
              val := round p (dyadic_num (Zpos mx * Zpos my) (ex + ey))
                             (dyadic_den (ex + ey)) |}
  | zero, inf | inf, zero => Panic "multiplication of zero with infinity"
  | inf, _ | _, inf => Done {| prec := p; neg := s; val := inf |}
  | _, _ => Done {| prec := p; neg := s; val := zero |}
  end.

(** [z.Quo(x, y)]: a receiver of precision 0 takes the larger operand
    precision; 0/0 and Inf/Inf panic. *)
Definition Quo (z x y : Float) : run Float :=
  let p := if prec z =? 0 then Z.max (prec x) (prec y) else prec z in
  let s := xorb (neg x) (neg y) in
  match val x, val y with
  | finite mx ex, finite my ey =>
      Done {| prec := p; neg := s;
              val := round p (dyadic_num (Zpos mx) ex * dyadic_den ey)
                             (dyadic_den ex * dyadic_num (Zpos my) ey) |}
  | zero, zero | inf, inf =>
      Panic "division of zero by zero or infinity by infinity"
  | zero, _ | _, inf => Done {| prec := p; neg := s; val := zero |}
  | _, _ => Done {| prec := p; neg := s; val := inf |}
  end.

(** [x.Text('f', digits)]: the exact value in decimal, rounded
    half-to-even at [digits] fraction digits.  A negative [digits] asks
    for the shortest digits that identify [x]; that format is not
    modelled. *)
Definition Text (x : Float) (digits : Z) : run string :=
  let sign := if neg x then ["-"%char] else [] in
  match val x with
  | inf => Done (if neg x then "-Inf" else "+Inf")%string
  | zero =>
      if digits <? 0 then Unmodelled "Float.Text: shortest digits"
      else Done (string_of_list_ascii (sign ++ fixed 0 digits))
  | finite m e =>
      if digits <? 0 then Unmodelled "Float.Text: shortest digits"
      else
        let n := div_rne (dyadic_num (Zpos m) e * 10 ^ digits) (dyadic_den e) in
        Done (string_of_list_ascii (sign ++ fixed n digits))
  end.

End BigFloat.

(** ** main.go: unit conversion *)

Module Main.
Import Float64.
Local Open Scope run_scope.

(** The 53-bit [big.Float] values 1 and 1e18. *)
Definition one53 : BigFloat.Float :=
  {| BigFloat.prec := 53; BigFloat.neg := false;
     BigFloat.val := BigFloat.finite 4503599627370496 (-52) |}.
Definition e18_53 : BigFloat.Float :=
  {| BigFloat.prec := 53; BigFloat.neg := false;
     BigFloat.val := BigFloat.finite 7812500000000000 7 |}.

(** The divisor [formatBigIntToDecimal] builds.  Go's [^] on integers
    is bitwise exclusive or. *)
Definition divisor (decimals : Z) : run BigFloat.Float :=
  divisor0 <- BigFloat.SetFloat64 BigFloat.new (of_int 1) ;;
  e18 <- BigFloat.SetFloat64 BigFloat.new (of_int (10 ^ 18)) ;;
  divisor1 <- BigFloat.Mul divisor0 divisor0 e18 ;;
  if negb (decimals =? 18) then
    divisor2 <- BigFloat.SetFloat64 divisor1 (of_int 1) ;;
    y <- BigFloat.SetFloat64 BigFloat.new (of_int (Z.lxor 10 decimals)) ;;
    BigFloat.Mul divisor2 divisor2 y
  else Done divisor1.

(** [formatBigIntToDecimal(amount, decimals)]. *)
Definition formatBigIntToDecimal (amount : Z) (decimals : Z) : run string :=
  let amountFloat := BigFloat.SetInt BigFloat.new amount in
  d <- divisor decimals ;;
  humanReadable <- BigFloat.Quo BigFloat.new amountFloat d ;;
  BigFloat.Text humanReadable decimals.

(** *** Errors, events and the command monad *)

(** Go [error] values: [fmt.Errorf(msg)] and [fmt.Errorf(msg, err)] with
    a [%w] verb in [msg]. *)
Inductive error : Type :=
| Errorf (msg : string)
| Wrap (msg : string) (cause : error).

(** [int64(x)] truncates toward zero; when the integer part does not fit
    the result is implementation-dependent, and it is an [int64]
    whatever the implementation. *)
Record Platform : Type := {
  unrepresentable : float64 -> Z;
  unrepresentable_int64 :
    forall x, - 2 ^ 63 <= unrepresentable x <= 2 ^ 63 - 1
}.

Definition int64_of_float64 (pf : Platform) (x : float64) : Z :=
  match trunc x with
  | Some z =>
      if (- 2 ^ 63 <=? z) && (z <=? 2 ^ 63 - 1) then z
      else unrepresentable pf x
  | None => unrepresentable pf x
  end.

(** The float64 product is outside what [int64] holds (NaN apart). *)
Definition exceeds_int64 (p : float64) : Prop :=
  match trunc p with
  | Some z => z < - 2 ^ 63 \/ 2 ^ 63 - 1 < z
  | None => p <> S754_nan
  end.

(** Process-wide settings [main] fills in before a command runs. *)
Record Config : Type := {
  keystoreDir : string;
  keystorePassword : string;
  ethNodeURL : string;
  chainId : Z
}.

(** How a command ends: it returns, returns an error, panics, or leaves
    the modelled fragment of the library. *)
Inductive status (A : Type) : Type :=
| Ret (a : A)
| Fail (err : error)
| Panicked (msg : string)
| Beyond (what : string).
Arguments Ret {A} a.
Arguments Fail {A} err.
Arguments Panicked {A} msg.
Arguments Beyond {A} what.

Section Commands.

(** [common.Address], [abi.ABI] and [*types.Transaction] after signing. *)
Variables address ABI SignedTx : Type.

Record Account : Type := { Address : address }.

(** The fields [types.NewTransaction] takes. *)
Record Transaction : Type := {
  nonce : Z;
  to : address;
  value : Z;
  gasLimit : Z;
  gasPrice : Z;
  data : list Z
}.

(** [ethereum.CallMsg] with the fields the program sets. *)
Record CallMsg : Type := { To : address; Data : list Z }.

(** An argument handed to [ABI.Pack]. *)
Inductive arg : Type :=
| ArgAddress (a : address)
| ArgBigInt (v : Z).

(** What the program calls outside itself: go-ethereum's pure helpers,
    the key store, the node behind [ethclient], and the file that holds
    the token ABI. *)
Record World : Type := {
  HexToAddress : string -> address;
  AddressHex : address -> string;
  Pack : ABI -> string -> list arg -> error + list Z;
  TxHashHex : SignedTx -> string;
  Accounts : list Account;
  Unlock : Account -> string -> option error;
  SignTx : Account -> Transaction -> Z -> error + SignedTx;
  Dial : string -> option error;
  BalanceAt : address -> error + Z;
  PendingNonceAt : address -> error + Z;
  SuggestGasPrice : error + Z;
  CallContract : CallMsg -> error + list Z;
  SendTransaction : SignedTx -> option error;
  Open : string -> option error;
  ReadAll : string -> error + string;
  ABI_JSON : string -> error + ABI
}.

(** One entry per call that leaves the program. *)
Inductive event : Type :=
| EvNewKeyStore (dir : string)
| EvAccounts
| EvUnlock (a : Account) (passphrase : string)
| EvSignTx (a : Account) (tx : Transaction) (chain : Z)
| EvDial (url : string)
| EvBalanceAt (a : address)
| EvPendingNonceAt (a : address)
| EvSuggestGasPrice
| EvCallContract (msg : CallMsg)
| EvSendTransaction (tx : SignedTx)
| EvOpen (path : string)
| EvReadAll (path : string)
| EvPrintf (format : string) (args : list string).

(** The calls that go to the node: the connection and the five RPCs. *)
Definition node_call (ev : event) : bool :=
  match ev with
  | EvDial _ | EvBalanceAt _ | EvPendingNonceAt _ | EvSuggestGasPrice
  | EvCallContract _ | EvSendTransaction _ => true
  | _ => false
  end.

Definition sign_call (ev : event) : bool :=
  match ev with EvSignTx _ _ _ => true | _ => false end.

Definition broadcast_call (ev : event) : bool :=
  match ev with EvSendTransaction _ => true | _ => false end.

(** A command: the calls it made, in order, and how it ended. *)
Definition M (A : Type) : Type := (list event * status A)%type.

Definition ret {A} (a : A) : M A := ([], Ret a).

Definition bind {A B} (m : M A) (k : A -> M B) : M B :=
  match m with
  | (t, Ret a) => let '(t', s) := k a in (t ++ t', s)
  | (t, Fail e) => (t, Fail e)
  | (t, Panicked msg) => (t, Panicked msg)
  | (t, Beyond w) => (t, Beyond w)
  end.

Declare Scope cmd_scope.
Notation "x <- m ;; k" := (bind m (fun x => k))
  (at level 61, m at next level, right associativity) : cmd_scope.
Notation "m ;;; k" := (bind m (fun _ => k))
  (at level 61, right associativity) : cmd_scope.
Local Open Scope cmd_scope.

(** [return fmt.Errorf(msg)]. *)
Definition fail {A} (msg : string) : M A := ([], Fail (Errorf msg)).

(** A call that returns [(x, err)], logged as [ev]. *)
Definition call {A} (ev : event) (r : error + A) : M A :=
  ([ev], match r with inr a => Ret a | inl e => Fail e end).

(** A call that returns [err] only. *)
Definition call_ (ev : event) (r : option error) : M unit :=
  ([ev], match r with None => Ret tt | Some e => Fail e end).

(** A call that cannot fail. *)
Definition log (ev : event) : M unit := ([ev], Ret tt).

(** A call that stays inside the program and returns [(x, err)]. *)
Definition pure {A} (r : error + A) : M A :=
  ([], match r with inr a => Ret a | inl e => Fail e end).

(** [if err != nil { return fmt.Errorf(msg, err) }] around [m]. *)
Definition wrap {A} (msg : string) (m : M A) : M A :=
  match m with
  | (t, Fail e) => (t, Fail (Wrap msg e))
  | other => other
  end.

(** A library call that may panic. *)
Definition lift {A} (r : run A) : M A :=
  ([], match r with
       | Done a => Ret a
       | Panic msg => Panicked msg
       | Unmodelled w => Beyond w
       end).

Variable w : World.
Variable cfg : Config.
Variable pf : Platform.

(** [accounts[index]] after the bounds check. *)
Definition account_at (accounts : list Account) (index : Z) : M Account :=
  match nth_error accounts (Z.to_nat index) with
  | Some a => ret a
  | None => ([], Panicked "index out of range")
  end.

(** *** token/token.go *)

Record Token : Type := {
  token_address : address;
  token_decimal : Z;
  token_ABI : ABI
}.

(** [loadTokenABI(filename)]. *)
Definition loadTokenABI (filename : string) : M ABI :=
  wrap "failed to open ABI file: %w" (call_ (EvOpen filename) (Open w filename)) ;;;
  abiBytes <- wrap "failed to read ABI file: %w"
                (call (EvReadAll filename) (ReadAll w filename)) ;;
  wrap "failed to parse ABI: %w" (pure (ABI_JSON w abiBytes)).

(** [ERCToken(address, decimal, client)]. *)
Definition ERCToken (addr : string) (decimal : Z) : M Token :=
  parsedABI <- wrap "failed to load token ABI: %w" (loadTokenABI "./token/abi.json") ;;
  ret {| token_address := HexToAddress w addr;
         token_decimal := decimal;
         token_ABI := parsedABI |}.

(** [(t *Token) BalanceOf(address)]. *)
Definition BalanceOf (t : Token) (addr : string) : M Z :=
  let addressToCheck := HexToAddress w addr in
  data <- wrap "failed to pack data for balanceOf: %w"
            (pure (Pack w (token_ABI t) "balanceOf" [ArgAddress addressToCheck])) ;;
  let msg := {| To := token_address t; Data := data |} in
  result <- wrap "failed to call balanceOf: %w"
              (call (EvCallContract msg) (CallContract w msg)) ;;
  let balance := BigInt.SetBytes result in
  ret balance.

(** *** main.go: commands *)

(** [keystore.NewKeyStore(keystoreDir, ...)] and [keyStore.Accounts()]. *)
Definition open_accounts : M (list Account) :=
  log (EvNewKeyStore (keystoreDir cfg)) ;;;
  log EvAccounts ;;;
  ret (Accounts w).

Definition out_of_range (index : Z) (accounts : list Account) : bool :=
  (index <? 0) || (Z.of_nat (List.length accounts) <=? index).

(** [getTokenBalance(client, tokenAddress, decimal, address)]. *)
Definition getTokenBalance (tokenAddress : string) (decimal : Z) (a : address)
  : M Z :=
  tokenContract <- ERCToken tokenAddress decimal ;;
  balance <- BalanceOf tokenContract (AddressHex w a) ;;
  ret balance.

(** [checkBalance], with the flags [index], [token-address], [decimal]. *)
Definition checkBalance (index : Z) (tokenAddress : string) (decimal : Z)
  : M unit :=
  accounts <- open_accounts ;;
  if out_of_range index accounts then fail "invalid account index"
  else
    wrap "failed to connect to the Ethereum client: %w"
      (call_ (EvDial (ethNodeURL cfg)) (Dial w (ethNodeURL cfg))) ;;;
    acct <- account_at accounts index ;;
    let ethAddress := Address acct in
    ethBalance <- wrap "failed to get ETH balance: %w"
                    (call (EvBalanceAt ethAddress) (BalanceAt w ethAddress)) ;;
    s <- lift (formatBigIntToDecimal ethBalance 18) ;;
    log (EvPrintf "ETH Balance of %s: %s\n" [AddressHex w ethAddress; s]) ;;;
    tokenBalance <- wrap "failed to get token balance: %w"
                      (getTokenBalance tokenAddress decimal ethAddress) ;;
    s' <- lift (formatBigIntToDecimal tokenBalance decimal) ;;
    log (EvPrintf "Token Balance of %s: %s\n" [AddressHex w ethAddress; s']) ;;;
    ret tt.

(** [int64(amount * 1e18)], the value [transferEth] hands to
    [big.NewInt]. *)
Definition weiValue (amount : float64) : Z :=
  int64_of_float64 pf (mul amount (of_int (10 ^ 18))).

(** [transferEth], with the flags [from], [to], [amount]. *)
Definition transferEth (fromIndex : Z) (toAddress : string) (amount : float64)
  : M unit :=
  wrap "failed to connect to the Ethereum client: %w"
    (call_ (EvDial (ethNodeURL cfg)) (Dial w (ethNodeURL cfg))) ;;;
  accounts <- open_accounts ;;
  if out_of_range fromIndex accounts then fail "invalid sender account index"
  else
    account <- account_at accounts fromIndex ;;
    wrap "failed to unlock account: %w"
      (call_ (EvUnlock account (keystorePassword cfg))
             (Unlock w account (keystorePassword cfg))) ;;;
    let value := weiValue amount in
    nonce <- wrap "failed to get nonce: %w"
               (call (EvPendingNonceAt (Address account))
                     (PendingNonceAt w (Address account))) ;;
    let gasLimit := 21000 in
    gasPrice <- wrap "failed to get gas price: %w"
                  (call EvSuggestGasPrice (SuggestGasPrice w)) ;;
    let tx := {| nonce := nonce; to := HexToAddress w toAddress; value := value;
                 gasLimit := gasLimit; gasPrice := gasPrice; data := [] |} in
    signedTx <- wrap "failed to sign transaction: %w"
                  (call (EvSignTx account tx (chainId cfg))
                        (SignTx w account tx (chainId cfg))) ;;
    wrap "failed to send transaction: %w"
      (call_ (EvSendTransaction signedTx) (SendTransaction w signedTx)) ;;;
    log (EvPrintf "Transaction sent: %s\n" [TxHashHex w signedTx]) ;;;
    ret tt.

(** The transaction [transferEth] builds. *)
Definition ethTx (toAddress : string) (amount : float64) (nonce gasPrice : Z)
  : Transaction :=
  {| nonce := nonce; to := HexToAddress w toAddress;
     value := weiValue amount; gasLimit := 21000; gasPrice := gasPrice;
     data := [] |}.

(** The base-unit amount [transferToken] computes: the value the ignored
    [SetString] leaves in [amountInWei]. *)
Definition amountInWei (amount : float64) (decimal : Z) : Z :=
  fst (BigInt.SetString (Strconv.Sprintf_f (mul amount (Math.Pow10 decimal)))).

(** [tokenContract.ABI.Pack("transfer", common.HexToAddress(toAddress),
    amountInWei)]. *)
Definition transferCallData (abi : ABI) (toAddress : string) (amount : float64)
    (decimal : Z) : error + list Z :=
  Pack w abi "transfer"
    [ArgAddress (HexToAddress w toAddress); ArgBigInt (amountInWei amount decimal)].

(** [transferToken], with the flags [from], [to], [amount],
    [token-address], [decimal]. *)
Definition transferToken (fromIndex : Z) (toAddress : string) (amount : float64)
    (tokenAddress : string) (decimal : Z) : M unit :=
  wrap "failed to connect to the Ethereum client: %w"
    (call_ (EvDial (ethNodeURL cfg)) (Dial w (ethNodeURL cfg))) ;;;
  accounts <- open_accounts ;;
  if out_of_range fromIndex accounts then fail "invalid sender account index"
  else
    account <- account_at accounts fromIndex ;;
    wrap "failed to unlock account: %w"
      (call_ (EvUnlock account (keystorePassword cfg))
             (Unlock w account (keystorePassword cfg))) ;;;
    tokenContract <- wrap "failed to create token contract: %w"
                       (ERCToken tokenAddress decimal) ;;
    nonce <- wrap "failed to get nonce: %w"
               (call (EvPendingNonceAt (Address account))
                     (PendingNonceAt w (Address account))) ;;
    let gasLimit := 60000 in
    gasPrice <- wrap "failed to get gas price: %w"
                  (call EvSuggestGasPrice (SuggestGasPrice w)) ;;
    txData <- wrap "failed to pack transfer data: %w"
                (pure (transferCallData (token_ABI tokenContract)
                                        toAddress amount decimal)) ;;
    let tx := {| nonce := nonce; to := HexToAddress w tokenAddress; value := 0;
                 gasLimit := gasLimit; gasPrice := gasPrice; data := txData |} in
    signedTx <- wrap "failed to sign transaction: %w"
                  (call (EvSignTx account tx (chainId cfg))
                        (SignTx w account tx (chainId cfg))) ;;
    wrap "failed to send transaction: %w"
      (call_ (EvSendTransaction signedTx) (SendTransaction w signedTx)) ;;;
    log (EvPrintf "Token transfer transaction sent: %s\n" [TxHashHex w signedTx]) ;;;
    ret tt.

End Commands.

Arguments Build_Account {address}.
Arguments Address {address}.
Arguments Build_Transaction {address}.
Arguments nonce {address}.
Arguments to {address}.
Arguments value {address}.
Arguments gasLimit {address}.
Arguments gasPrice {address}.
Arguments data {address}.
Arguments Build_CallMsg {address}.
Arguments ArgAddress {address}.
Arguments ArgBigInt {address}.
Arguments Build_World {address ABI SignedTx}.
Arguments HexToAddress {address ABI SignedTx}.
Arguments AddressHex {address ABI SignedTx}.
Arguments Pack {address ABI SignedTx}.
Arguments TxHashHex {address ABI SignedTx}.
Arguments Accounts {address ABI SignedTx}.
Arguments Unlock {address ABI SignedTx}.
Arguments SignTx {address ABI SignedTx}.
Arguments Dial {address ABI SignedTx}.
Arguments BalanceAt {address ABI SignedTx}.
Arguments PendingNonceAt {address ABI SignedTx}.
Arguments SuggestGasPrice {address ABI SignedTx}.
Arguments CallContract {address ABI SignedTx}.
Arguments SendTransaction {address ABI SignedTx}.
Arguments Open {address ABI SignedTx}.
Arguments ReadAll {address ABI SignedTx}.
Arguments ABI_JSON {address ABI SignedTx}.
Arguments EvNewKeyStore {address SignedTx}.
Arguments EvAccounts {address SignedTx}.
Arguments EvUnlock {address SignedTx}.
Arguments EvSignTx {address SignedTx}.
Arguments EvDial {address SignedTx}.
Arguments EvBalanceAt {address SignedTx}.
Arguments EvPendingNonceAt {address SignedTx}.
Arguments EvSuggestGasPrice {address SignedTx}.
Arguments EvCallContract {address SignedTx}.
Arguments EvSendTransaction {address SignedTx}.
Arguments EvOpen {address SignedTx}.
Arguments EvReadAll {address SignedTx}.
Arguments EvPrintf {address SignedTx}.
Arguments node_call {address SignedTx}.
Arguments sign_call {address SignedTx}.
Arguments broadcast_call {address SignedTx}.
Arguments Build_Token {address ABI}.
Arguments token_address {address ABI}.
Arguments token_decimal {address ABI}.
Arguments token_ABI {address ABI}.
Arguments BalanceOf {address ABI SignedTx}.
Arguments ERCToken {address ABI SignedTx}.
Arguments loadTokenABI {address ABI SignedTx}.
Arguments getTokenBalance {address ABI SignedTx}.
Arguments checkBalance {address ABI SignedTx}.
Arguments transferEth {address ABI SignedTx}.
Arguments ethTx {address ABI SignedTx}.
Arguments transferToken {address ABI SignedTx}.
Arguments transferCallData {address ABI SignedTx}.
Arguments out_of_range {address}.

(** *** The two conversions, end to end *)

(** The amount flag is parsed to a [float64] before a command sees it. *)
Definition toBaseUnits_eth (pf : Platform) (human : string) : option Z :=
  option_map (weiValue pf) (Strconv.ParseFloat human).

Definition toBaseUnits_token (human : string) (decimal : Z) : option Z :=
  option_map (fun amount => amountInWei amount decimal) (Strconv.ParseFloat human).

(** Base units to text and back, through [transferEth]'s conversion
    (18 decimals) and through [transferToken]'s. *)
Definition roundTrip_eth (pf : Platform) (n : Z) : option Z :=
  match formatBigIntToDecimal n 18 with
  | Done human => toBaseUnits_eth pf human
  | _ => None
  end.

Definition roundTrip_token (n decimals : Z) : option Z :=
  match formatBigIntToDecimal n decimals with
  | Done human => toBaseUnits_token human decimals
  | _ => None
  end.

(** The integer [fmt.Sprintf("%f", p)] shows before its point: [p]
    rounded half-to-even at six decimals, without the fraction, signed;
    0 for NaN and the infinities. *)
Definition whole_part (p : float64) : Z :=
  match p with
  | S754_finite s m e =>
      cond_Zopp s
        (Rounding.div_rne (Rounding.dyadic_num (Zpos m) e * 10 ^ 6)
                          (Rounding.dyadic_den e) / 10 ^ 6)
  | _ => 0
  end.

(** Follows the spec's words, not the source: a response that "can be
    interpreted as an integer" by the contract interface is the encoding
    of the single [uint256] result, one 32-byte word. *)
Definition decodes_as_integer (response : list Z) : bool :=
  (Z.of_nat (List.length response) =? 32)
  && forallb (fun b => (0 <=? b) && (b <? 256)) response.

End Main.

(** One step of the command monad. *)
Ltac step :=
  cbn [Main.bind Main.wrap Main.call Main.call_ Main.log Main.pure Main.ret
       Main.fail Main.lift app Main.open_accounts].

(** ** Test doubles *)

(** A node and a key store with fixed answers, the stubs of the
    end-to-end scenarios: one account, pending nonce 3, gas price 20,
    native balance 2 * 10^18, token call result 5000000. *)
Module Scenario.
Import Float64 Main.

(** amd64: an unrepresentable conversion yields the least [int64]. *)
Definition amd64 : Platform :=
  {| unrepresentable := fun _ => - 2 ^ 63;
     unrepresentable_int64 := fun _ => ltac:(lia) |}.

(** The 32-byte big-endian word of [n]. *)
Definition word32 (n : Z) : list Z :=
  map (fun i => (n / 256 ^ (31 - Z.of_nat i)) mod 256) (seq 0 32).

Definition config : Config :=
  {| keystoreDir := "./keystore"; keystorePassword := "secret";
     ethNodeURL := "https://mainnet.infura.io/v3/key"; chainId := 1 |}.

Definition identityA : Account string := {| Address := "0xA"%string |}.

(** Addresses are their hex text, a signed transaction is the transaction
    with the chain id, call-data is the selector followed by the
    arguments as words. *)
Definition pack (_ : unit) (name : string) (args : list (arg string))
  : error + list Z :=
  inr ((if String.eqb name "transfer" then [169; 5; 156; 187] else [112; 160; 130; 49])
       ++ List.concat (map (fun a => match a with
                                | ArgAddress _ => word32 10
                                | ArgBigInt v => word32 v
                                end) args)).

Definition world : World string unit (Transaction string * Z) :=
  {| HexToAddress := fun s => s;
     AddressHex := fun a => a;
     Pack := pack;
     TxHashHex := fun _ => "0xhash"%string;
     Accounts := [identityA];
     Unlock := fun _ _ => None;
     SignTx := fun _ tx chain => inr (tx, chain);
     Dial := fun _ => None;
     BalanceAt := fun _ => inr (2 * 10 ^ 18);
     PendingNonceAt := fun _ => inr 3;
     SuggestGasPrice := inr 20;
     CallContract := fun _ => inr (word32 5000000);
     SendTransaction := fun _ => None;
     Open := fun _ => None;
     ReadAll := fun _ => inr "[]"%string;
     ABI_JSON := fun _ => inr tt |}.

(** The same, with a key store that rejects the passphrase. *)
Definition locked : World string unit (Transaction string * Z) :=
  {| HexToAddress := HexToAddress world;
     AddressHex := AddressHex world;
     Pack := Pack world;
     TxHashHex := TxHashHex world;
     Accounts := Accounts world;
     Unlock := fun _ _ => Some (Errorf "could not decrypt key with given password");
     SignTx := SignTx world;
     Dial := Dial world;
     BalanceAt := BalanceAt world;
     PendingNonceAt := PendingNonceAt world;
     SuggestGasPrice := SuggestGasPrice world;
     CallContract := CallContract world;
     SendTransaction := SendTransaction world;
     Open := Open world;
     ReadAll := ReadAll world;
     ABI_JSON := ABI_JSON world |}.

(** The same, with a node endpoint that cannot be dialled. *)
Definition unreachable : World string unit (Transaction string * Z) :=
  {| HexToAddress := HexToAddress world;
     AddressHex := AddressHex world;
     Pack := Pack world;
     TxHashHex := TxHashHex world;
     Accounts := Accounts world;
     Unlock := Unlock world;
     SignTx := SignTx world;
     Dial := fun _ => Some (Errorf "dial failed");
     BalanceAt := BalanceAt world;
     PendingNonceAt := PendingNonceAt world;
     SuggestGasPrice := SuggestGasPrice world;
     CallContract := CallContract world;
     SendTransaction := SendTransaction world;
     Open := Open world;
     ReadAll := ReadAll world;
     ABI_JSON := ABI_JSON world |}.

(** The same, with a token address that holds no contract: the call
    returns no bytes. *)
Definition no_contract : World string unit (Transaction string * Z) :=
  {| HexToAddress := HexToAddress world;
     AddressHex := AddressHex world;
     Pack := Pack world;
     TxHashHex := TxHashHex world;
     Accounts := Accounts world;
     Unlock := Unlock world;
     SignTx := SignTx world;
     Dial := Dial world;
     BalanceAt := BalanceAt world;
     PendingNonceAt := PendingNonceAt world;
     SuggestGasPrice := SuggestGasPrice world;
     CallContract := fun _ => inr [];
     SendTransaction := SendTransaction world;
     Open := Open world;
     ReadAll := ReadAll world;
     ABI_JSON := ABI_JSON world |}.

End Scenario.

(** * Facts about rounding *)

Section RoundingFacts.
Import Rounding.

Lemma pow2_max_pos (k : Z) : 0 < 2 ^ Z.max 0 k.
Proof. apply Z.pow_pos_nonneg; lia. Qed.

Lemma pow2_split (x y : Z) : 0 <= x -> 0 <= y -> 2 ^ (x + y) = 2 ^ x * 2 ^ y.
Proof. intros. apply Z.pow_add_r; assumption. Qed.

Lemma ge_pow2_shift (a b k N : Z) :
  0 <= N -> 0 <= N + k ->
  ge_pow2 a b k <-> b * 2 ^ (N + k) <= a * 2 ^ N.
Proof.
  intros HN HNk. unfold ge_pow2.
  destruct (Z_le_gt_dec 0 k) as [Hk|Hk].
  - rewrite (Z.max_r 0 k), (Z.max_l 0 (- k)) by lia.
    rewrite (pow2_split N k) by lia.
    assert (0 < 2 ^ N) by (apply Z.pow_pos_nonneg; lia).
    change (2 ^ 0) with 1. split; intro; nia.
  - rewrite (Z.max_l 0 k), (Z.max_r 0 (- k)) by lia.
    replace N with ((N + k) + (- k)) at 2 by lia.
    rewrite (pow2_split (N + k) (- k)) by lia.
    assert (0 < 2 ^ (N + k)) by (apply Z.pow_pos_nonneg; lia).
    change (2 ^ 0) with 1. split; intro; nia.
Qed.

Lemma ge_pow2_antitone (a b k k' : Z) :
  0 <= b -> k <= k' -> ge_pow2 a b k' -> ge_pow2 a b k.
Proof.
  intros Hb Hk H.
  set (N := Z.abs k + Z.abs k').
  apply (ge_pow2_shift a b k' N) in H; try (unfold N; lia).
  apply (ge_pow2_shift a b k N); try (unfold N; lia).
  assert (2 ^ (N + k) <= 2 ^ (N + k')).
  { apply Z.pow_le_mono_r; unfold N; lia. }
  nia.
Qed.

Lemma ratio_log2_spec (a b : Z) :
  0 < a -> 0 < b ->
  ge_pow2 a b (ratio_log2 a b) /\ ~ ge_pow2 a b (ratio_log2 a b + 1).
Proof.
  intros Ha Hb.
  destruct (Z.log2_spec a Ha) as [La Ua].
  destruct (Z.log2_spec b Hb) as [Lb Ub].
  assert (Hla := Z.log2_nonneg a). assert (Hlb := Z.log2_nonneg b).
  unfold ratio_log2.
  set (la := Z.log2 a) in *. set (lb := Z.log2 b) in *.
  assert (Hsa : 2 ^ Z.succ la = 2 * 2 ^ la) by (apply Z.pow_succ_r; lia).
  assert (Hsb : 2 ^ Z.succ lb = 2 * 2 ^ lb) by (apply Z.pow_succ_r; lia).
  assert (Pa : 0 < 2 ^ la) by (apply Z.pow_pos_nonneg; lia).
  assert (Pb : 0 < 2 ^ lb) by (apply Z.pow_pos_nonneg; lia).
  set (N := la + lb + 2).
  destruct (Z.ltb_spec (a * 2 ^ Z.max 0 (- (la - lb))) (b * 2 ^ Z.max 0 (la - lb)))
    as [Hlt|Hge].
  - (* a / b < 2 ^ d *)
    split.
    + apply (ge_pow2_shift a b (la - lb - 1) (lb + 1)); try lia.
      replace (lb + 1 + (la - lb - 1)) with la by lia.
      replace (lb + 1) with (Z.succ lb) by lia. nia.
    + replace (la - lb - 1 + 1) with (la - lb) by lia.
      unfold ge_pow2. lia.
  - split.
    + unfold ge_pow2. lia.
    + intro H. apply (ge_pow2_shift a b (la - lb + 1) lb) in H; try lia.
      replace (lb + (la - lb + 1)) with (Z.succ la) in H by lia. nia.
Qed.

Lemma ratio_log2_unique (a b k : Z) :
  0 < a -> 0 < b ->
  ge_pow2 a b k -> ~ ge_pow2 a b (k + 1) -> ratio_log2 a b = k.
Proof.
  intros Ha Hb Hk Hk1.
  destruct (ratio_log2_spec a b Ha Hb) as [HL HL1].
  destruct (Z.lt_trichotomy (ratio_log2 a b) k) as [Hlt|[Heq|Hgt]].
  - exfalso. apply HL1. apply (ge_pow2_antitone a b _ k); try lia. exact Hk.
  - exact Heq.
  - exfalso. apply Hk1. apply (ge_pow2_antitone a b _ (ratio_log2 a b)); try lia.
    exact HL.
Qed.

Lemma ratio_log2_lt (a b k : Z) :
  0 < a -> 0 < b -> ~ ge_pow2 a b k -> ratio_log2 a b < k.
Proof.
  intros Ha Hb Hk.
  destruct (ratio_log2_spec a b Ha Hb) as [HL _].
  destruct (Z_lt_ge_dec (ratio_log2 a b) k) as [?|Hge]; [assumption|].
  exfalso. apply Hk. apply (ge_pow2_antitone a b _ (ratio_log2 a b)); try lia.
  exact HL.
Qed.

(** The rounded quotient is within half a unit of the exact one. *)
Lemma div_rne_bounds (a b : Z) :
  0 <= a -> 0 < b ->
  2 * a - b <= 2 * b * div_rne a b <= 2 * a + b.
Proof.
  intros Ha Hb. unfold div_rne.
  assert (Hd := Z.div_mod a b ltac:(lia)).
  assert (Hm := Z.mod_pos_bound a b Hb).
  destruct (Z.compare_spec (2 * (a mod b)) b); [destruct (Z.even (a / b))| |]; nia.
Qed.

Lemma div_rne_nonneg (a b : Z) : 0 <= a -> 0 < b -> 0 <= div_rne a b.
Proof.
  intros Ha Hb. unfold div_rne.
  assert (0 <= a / b) by (apply Z.div_pos; lia).
  destruct (2 * (a mod b) ?= b); [destruct (Z.even (a / b))| |]; lia.
Qed.

Lemma div_rne_exact (k b : Z) : 0 < b -> div_rne (k * b) b = k.
Proof.
  intros Hb. unfold div_rne.
  rewrite Z.mod_mul, Z.div_mul by lia.
  change (2 * 0) with 0.
  destruct (Z.compare_spec 0 b); lia.
Qed.

Lemma div_rne_below (a b t : Z) :
  0 <= a -> 0 < b -> 2 * a < (2 * t - 1) * b -> div_rne a b <= t - 1.
Proof.
  intros Ha Hb H. assert (Hq := div_rne_bounds a b Ha Hb). nia.
Qed.

Lemma div_rne_above (a b t : Z) :
  0 <= a -> 0 < b -> t * b <= a -> t <= div_rne a b.
Proof.
  intros Ha Hb H. assert (Hq := div_rne_bounds a b Ha Hb). nia.
Qed.

Lemma ge_pow2_split_exp (a b e j : Z) :
  0 <= j ->
  ge_pow2 a b (e + j) <-> 2 ^ j * (b * 2 ^ Z.max 0 e) <= a * 2 ^ Z.max 0 (- e).
Proof.
  intros Hj.
  rewrite (ge_pow2_shift a b (e + j) (Z.max 0 (- e))) by lia.
  replace (Z.max 0 (- e) + (e + j)) with (j + Z.max 0 e) by lia.
  rewrite (pow2_split j (Z.max 0 e)) by lia.
  split; intro; nia.
Qed.

Lemma ge_pow2_dyadic (a b m e k : Z) :
  0 < b -> is_dyadic a b m e ->
  ge_pow2 a b k <-> ge_pow2 m 1 (k - e).
Proof.
  unfold is_dyadic, dyadic_den, dyadic_num. intros Hb Hab.
  set (N := Z.abs k + Z.abs e + 1).
  rewrite (ge_pow2_shift a b k N) by (unfold N; lia).
  rewrite (ge_pow2_shift m 1 (k - e) (N + Z.max 0 e)) by (unfold N; lia).
  replace (N + Z.max 0 e + (k - e)) with ((N + k) + Z.max 0 (- e)) by lia.
  rewrite (pow2_split (N + k) (Z.max 0 (- e))) by (unfold N; lia).
  rewrite (pow2_split N (Z.max 0 e)) by (unfold N; lia).
  assert (HD := pow2_max_pos (- e)). assert (HU := pow2_max_pos e).
  assert (HN : 0 < 2 ^ N) by (apply Z.pow_pos_nonneg; unfold N; lia).
  assert (HNk : 0 < 2 ^ (N + k)) by (apply Z.pow_pos_nonneg; unfold N; lia).
  set (D := 2 ^ Z.max 0 (- e)) in *. set (U := 2 ^ Z.max 0 e) in *.
  set (X := 2 ^ N) in *. set (Y := 2 ^ (N + k)) in *.
  split; intro H.
  - apply (Z.mul_le_mono_pos_l _ _ b Hb).
    replace (b * (1 * (Y * D))) with ((b * Y) * D) by ring.
    replace (b * (m * (X * U))) with ((b * (m * U)) * X) by ring.
    rewrite <- Hab. nia.
  - apply (Z.mul_le_mono_pos_r _ _ D HD).
    replace (a * X * D) with ((a * D) * X) by ring.
    rewrite Hab. nia.
Qed.

(** A quotient that already has a [p]-bit significand is its own
    rounding. *)
Lemma round_ratio_exact (p a b m e : Z) :
  1 <= p -> 0 < a -> 0 < b ->
  2 ^ (p - 1) <= m < 2 ^ p -> is_dyadic a b m e ->
  round_ratio p None a b = (m, e).
Proof.
  intros Hp Ha Hb Hm Hab.
  assert (HL : ratio_log2 a b = p - 1 + e).
  { apply ratio_log2_unique; try assumption.
    - apply (ge_pow2_dyadic a b m e _ Hb Hab).
      replace (p - 1 + e - e) with (p - 1) by lia.
      unfold ge_pow2. rewrite Z.max_r, Z.max_l by lia. change (2 ^ 0) with 1. lia.
    - intro H. apply (ge_pow2_dyadic a b m e _ Hb Hab) in H.
      replace (p - 1 + e + 1 - e) with p in H by lia.
      unfold ge_pow2 in H. rewrite Z.max_r, Z.max_l in H by lia.
      change (2 ^ 0) with 1 in H. lia. }
  unfold round_ratio, ulp_exp. rewrite HL.
  replace (p - 1 + e + 1 - p) with e by lia.
  assert (Hs : scaled_rne a b e = m).
  { unfold scaled_rne. unfold is_dyadic, dyadic_den, dyadic_num in Hab.
    rewrite Hab. replace (b * (m * 2 ^ Z.max 0 e)) with (m * (b * 2 ^ Z.max 0 e)) by ring.
    apply div_rne_exact. assert (HU := pow2_max_pos e). nia. }
  cbv zeta. rewrite Hs.
  destruct (Z.eqb_spec m (2 ^ p)); [lia | reflexivity].
Qed.

(** The rounded significand has exactly [p] bits. *)
Lemma round_ratio_normal (p a b m e : Z) :
  1 <= p -> 0 < a -> 0 < b ->
  round_ratio p None a b = (m, e) -> 2 ^ (p - 1) <= m < 2 ^ p.
Proof.
  intros Hp Ha Hb. unfold round_ratio, ulp_exp.
  destruct (ratio_log2_spec a b Ha Hb) as [HL HL1].
  set (e0 := ratio_log2 a b + 1 - p).
  replace (ratio_log2 a b) with (e0 + (p - 1)) in HL by (unfold e0; lia).
  replace (ratio_log2 a b + 1) with (e0 + p) in HL1 by (unfold e0; lia).
  rewrite ge_pow2_split_exp in HL by lia.
  rewrite ge_pow2_split_exp in HL1 by lia.
  assert (HD := pow2_max_pos (- e0)). assert (HU := pow2_max_pos e0).
  assert (Hpp : 2 ^ p = 2 * 2 ^ (p - 1)).
  { replace p with (Z.succ (p - 1)) at 1 by lia. apply Z.pow_succ_r. lia. }
  assert (Hp1 : 0 < 2 ^ (p - 1)) by (apply Z.pow_pos_nonneg; lia).
  assert (Hlo : 2 ^ (p - 1) <= scaled_rne a b e0).
  { unfold scaled_rne. apply div_rne_above; nia. }
  assert (Hhi : scaled_rne a b e0 <= 2 ^ p).
  { unfold scaled_rne.
    replace (2 ^ p) with ((2 ^ p + 1) - 1) by lia.
    apply div_rne_below; nia. }
  cbv zeta.
  destruct (Z.eqb_spec (scaled_rne a b e0) (2 ^ p)); intro H; inversion H; subst; lia.
Qed.

End RoundingFacts.

(** * Facts about float64 and big.Float values *)

Section FloatFacts.
Import Rounding Float64.

Lemma dyadic_self (m e : Z) : is_dyadic (dyadic_num m e) (dyadic_den e) m e.
Proof. unfold is_dyadic. ring. Qed.

Lemma dyadic_num_pos (m e : Z) : 0 < m -> 0 < dyadic_num m e.
Proof. intros. unfold dyadic_num. assert (H1 := pow2_max_pos e). nia. Qed.

Lemma dyadic_den_pos (e : Z) : 0 < dyadic_den e.
Proof. unfold dyadic_den. apply pow2_max_pos. Qed.

(** An integer of magnitude at least 1 converts to a normal number or
    overflows. *)
Lemma of_ratio_int (s : bool) (a : Z) :
  1 <= a ->
  of_ratio s a 1 = S754_infinity s \/
  exists m e, of_ratio s a 1 = S754_finite s m e /\ 2 ^ 52 <= Zpos m < 2 ^ 53.
Proof.
  intros Ha. unfold of_ratio.
  destruct (Z.eqb_spec a 0); [lia|].
  assert (HL : 0 <= ratio_log2 a 1).
  { destruct (ratio_log2_spec a 1 ltac:(lia) ltac:(lia)) as [_ H1].
    destruct (Z_le_gt_dec 0 (ratio_log2 a 1)); [assumption|].
    exfalso. apply H1. apply (ge_pow2_antitone a 1 _ 0); try lia.
    unfold ge_pow2. cbn. lia. }
  assert (Hr : round_ratio prec (Some emin) a 1 = round_ratio prec None a 1).
  { unfold round_ratio, ulp_exp, prec, emin. rewrite Z.max_l by lia. reflexivity. }
  rewrite Hr.
  destruct (round_ratio prec None a 1) as [m e] eqn:Hm.
  apply round_ratio_normal in Hm; unfold prec in *; try lia.
  destruct m as [|mp|mp]; try lia.
  destruct (e <=? etop); [right|left; reflexivity].
  exists mp, e. split; [reflexivity|lia].
Qed.

Lemma of_int_cases (i : Z) :
  of_int i = S754_zero false \/
  of_int i = S754_infinity (i <? 0) \/
  exists m e, of_int i = S754_finite (i <? 0) m e /\ 2 ^ 52 <= Zpos m < 2 ^ 53.
Proof.
  unfold of_int. destruct (Z.eqb_spec i 0); [left; reflexivity|right].
  apply of_ratio_int. lia.
Qed.

(** A normal binary64 is held exactly by a 53-bit [big.Float]. *)
Lemma round53_normal (m : positive) (e : Z) :
  2 ^ 52 <= Zpos m < 2 ^ 53 ->
  BigFloat.round 53 (dyadic_num (Zpos m) e) (dyadic_den e) = BigFloat.finite m e.
Proof.
  intros Hm. unfold BigFloat.round.
  assert (Hn := dyadic_num_pos (Zpos m) e ltac:(lia)).
  assert (Hd := dyadic_den_pos e).
  destruct (Z.eqb_spec (dyadic_num (Zpos m) e) 0); [lia|].
  rewrite (round_ratio_exact 53 _ _ (Zpos m) e);
    [reflexivity | lia | lia | lia | change (53 - 1) with 52; exact Hm
    | apply dyadic_self].
Qed.

Lemma dyadic_shift (m e k : Z) :
  0 <= k ->
  is_dyadic (dyadic_num (2 ^ k * m) (- k + e)) (dyadic_den (- k + e)) m e.
Proof.
  intros Hk. unfold is_dyadic, dyadic_num, dyadic_den.
  transitivity (m * 2 ^ (k + Z.max 0 (- k + e) + Z.max 0 (- e))).
  - rewrite !Z.pow_add_r by lia. ring.
  - replace (k + Z.max 0 (- k + e) + Z.max 0 (- e))
      with (Z.max 0 (- (- k + e)) + Z.max 0 e) by lia.
    rewrite Z.pow_add_r by lia. ring.
Qed.

(** Multiplying by 1 at 53 bits leaves a normal binary64 as it is. *)
Lemma round53_times_one (m : positive) (e : Z) :
  2 ^ 52 <= Zpos m < 2 ^ 53 ->
  BigFloat.round 53 (dyadic_num (4503599627370496 * Zpos m) (-52 + e))
                    (dyadic_den (-52 + e)) = BigFloat.finite m e.
Proof.
  intros Hm. unfold BigFloat.round.
  assert (Hn := dyadic_num_pos (4503599627370496 * Zpos m) (-52 + e) ltac:(lia)).
  assert (Hd := dyadic_den_pos (-52 + e)).
  destruct (Z.eqb_spec (dyadic_num (4503599627370496 * Zpos m) (-52 + e)) 0); [lia|].
  rewrite (round_ratio_exact 53 _ _ (Zpos m) e);
    [reflexivity | lia | lia | lia | change (53 - 1) with 52; exact Hm
    | exact (dyadic_shift (Zpos m) e 52 ltac:(lia))].
Qed.

(** The integer model of rounding agrees with the Standard Library's
    IEEE 754 specification on the operations the program performs and at
    the edges of the format (subnormal results, overflow, ties). *)
Example agrees_with_SpecFloat :
  let tenth := of_ratio false 1 10 in
  let e18 := of_int (10 ^ 18) in
  let least := S754_finite false 1 (-1074) in
  let greatest := S754_finite false 9007199254740991 971 in
  mul tenth e18 = SFmul prec emax tenth e18 /\
  mul (of_ratio true 29 100) (of_int 100) = SFmul prec emax (of_ratio true 29 100) (of_int 100) /\
  mul least tenth = SFmul prec emax least tenth /\
  mul least (of_ratio false 1 2) = SFmul prec emax least (of_ratio false 1 2) /\
  mul (of_ratio false 3 1) (mul least (of_ratio false 1 2))
    = SFmul prec emax (of_ratio false 3 1) (SFmul prec emax least (of_ratio false 1 2)) /\
  mul greatest e18 = SFmul prec emax greatest e18 /\
  mul greatest tenth = SFmul prec emax greatest tenth /\
  div (of_int 1) (of_int 10) = SFdiv prec emax (of_int 1) (of_int 10) /\
  div (of_int 7) (of_int (10 ^ 18 + 1)) = SFdiv prec emax (of_int 7) (of_int (10 ^ 18 + 1)) /\
  div least (of_int 3) = SFdiv prec emax least (of_int 3) /\
  of_int (10 ^ 18 + 1) = binary_normalize prec emax (10 ^ 18 + 1) 0 false /\
  of_int (- (2 ^ 54 - 1)) = binary_normalize prec emax (- (2 ^ 54 - 1)) 0 false /\
  of_int (2 ^ 53 + 1) = binary_normalize prec emax (2 ^ 53 + 1) 0 false /\
  of_int (2 ^ 53 + 3) = binary_normalize prec emax (2 ^ 53 + 3) 0 false.
Proof. cbv zeta. repeat split; vm_compute; reflexivity. Qed.

End FloatFacts.

(** * Unit conversion *)

Section UnitConversion.
Import Rounding Float64 Main.
Local Open Scope run_scope.

Lemma set_one : BigFloat.SetFloat64 BigFloat.new (of_int 1) = Done one53.
Proof. vm_compute. reflexivity. Qed.

Lemma set_e18 : BigFloat.SetFloat64 BigFloat.new (of_int (10 ^ 18)) = Done e18_53.
Proof. vm_compute. reflexivity. Qed.

Lemma mul_one_e18 : BigFloat.Mul one53 one53 e18_53 = Done e18_53.
Proof. vm_compute. reflexivity. Qed.

Lemma reset_one : BigFloat.SetFloat64 e18_53 (of_int 1) = Done one53.
Proof. vm_compute. reflexivity. Qed.

Lemma divisor_18 : divisor 18 = Done e18_53.
Proof. vm_compute. reflexivity. Qed.

(** [1 * float64(i)] at 53 bits is [float64(i)]. *)
Lemma mul_one_of_int (i : Z) :
  (y <- BigFloat.SetFloat64 BigFloat.new (of_int i) ;; BigFloat.Mul one53 one53 y)
  = BigFloat.SetFloat64 BigFloat.new (of_int i).
Proof.
  destruct (of_int_cases i) as [H|[H|(m & e & H & Hm)]]; rewrite H.
  - reflexivity.
  - cbn. destruct (i <? 0); reflexivity.
  - cbn [BigFloat.SetFloat64 BigFloat.new BigFloat.prec Z.eqb run_bind].
    rewrite (round53_normal m e Hm).
    unfold BigFloat.Mul, one53.
    cbn [BigFloat.prec BigFloat.neg BigFloat.val Z.eqb xorb].
    rewrite (round53_times_one m e Hm). reflexivity.
Qed.

Lemma divisor_xor (decimals : Z) :
  decimals <> 18 ->
  divisor decimals = BigFloat.SetFloat64 BigFloat.new (of_int (Z.lxor 10 decimals)).
Proof.
  intros Hd. unfold divisor.
  rewrite set_one. cbn [run_bind]. rewrite set_e18. cbn [run_bind].
  rewrite mul_one_e18. cbn [run_bind].
  destruct (Z.eqb_spec decimals 18); [contradiction|]. cbn [negb].
  rewrite reset_one. cbn [run_bind].
  apply mul_one_of_int.
Qed.

Lemma lxor_10_small (d : Z) : 0 <= d -> Z.lxor 10 d < 2 ^ (Z.max 3 (Z.log2 d) + 1).
Proof.
  intros Hd.
  assert (H0 : 0 <= Z.lxor 10 d) by (apply Z.lxor_nonneg; lia).
  destruct (Z.eq_dec (Z.lxor 10 d) 0) as [Hz|Hz].
  - rewrite Hz. apply Z.pow_pos_nonneg; lia.
  - apply Z.log2_lt_pow2; [lia|].
    assert (H := Z.log2_lxor 10 d ltac:(lia) Hd).
    change (Z.log2 10) with 3 in H. lia.
Qed.

(** The exclusive or of 10 and [d] is never the [d]-th power of 10. *)
Lemma lxor_10_not_power (d : Z) : 0 <= d -> Z.lxor 10 d <> 10 ^ d.
Proof.
  intros Hd.
  destruct (Z_lt_ge_dec d 16) as [Hs|Hb].
  - assert (Hc : d = 0 \/ d = 1 \/ d = 2 \/ d = 3 \/ d = 4 \/ d = 5 \/ d = 6 \/ d = 7 \/
                 d = 8 \/ d = 9 \/ d = 10 \/ d = 11 \/ d = 12 \/ d = 13 \/ d = 14 \/
                 d = 15) by lia.
    repeat (destruct Hc as [Hc|Hc]; [subst d; vm_compute; discriminate|]).
    subst d; vm_compute; discriminate.
  - assert (H := lxor_10_small d Hd).
    assert (Hl : 3 <= Z.log2 d).
    { change 3 with (Z.log2 8). apply Z.log2_le_mono. lia. }
    rewrite Z.max_r in H by lia.
    assert (H2 : 2 ^ (Z.log2 d + 1) <= 2 * d).
    { replace (Z.log2 d + 1) with (Z.succ (Z.log2 d)) by lia.
      rewrite Z.pow_succ_r by lia.
      destruct (Z.log2_spec d ltac:(lia)). lia. }
    assert (H3 : d - 1 < 10 ^ (d - 1)) by (apply Z.pow_gt_lin_r; lia).
    assert (H4 : 10 ^ d = 10 * 10 ^ (d - 1)).
    { replace d with (Z.succ (d - 1)) at 1 by lia. apply Z.pow_succ_r. lia. }
    lia.
Qed.

(** C3: for every [decimals] other than 18 the divisor of
    [formatBigIntToDecimal] is [float64(10 XOR decimals)] held in a 53-bit
    [big.Float], the amount is divided by it, and for a non-negative
    [decimals] that integer is never the power [10 ^ decimals]. *)
Theorem divisor_is_xor_not_power (amount decimals : Z) :
  decimals <> 18 ->
  divisor decimals
    = BigFloat.SetFloat64 BigFloat.new (of_int (Z.lxor 10 decimals)) /\
  formatBigIntToDecimal amount decimals
    = (d <- BigFloat.SetFloat64 BigFloat.new (of_int (Z.lxor 10 decimals)) ;;
       q <- BigFloat.Quo BigFloat.new (BigFloat.SetInt BigFloat.new amount) d ;;
       BigFloat.Text q decimals) /\
  (0 <= decimals -> Z.lxor 10 decimals <> 10 ^ decimals).
Proof.
  intros Hd. split; [|split].
  - apply divisor_xor. exact Hd.
  - unfold formatBigIntToDecimal. rewrite (divisor_xor decimals Hd). reflexivity.
  - apply lxor_10_not_power.
Qed.

Lemma divisor_is_xor_not_power_witness :
  6 <> 18 /\
  (divisor 6 = BigFloat.SetFloat64 BigFloat.new (of_int (Z.lxor 10 6)) /\
   formatBigIntToDecimal 5000000 6
    = (d <- BigFloat.SetFloat64 BigFloat.new (of_int (Z.lxor 10 6)) ;;
       q <- BigFloat.Quo BigFloat.new (BigFloat.SetInt BigFloat.new 5000000) d ;;
       BigFloat.Text q 6) /\
   (0 <= 6 -> Z.lxor 10 6 <> 10 ^ 6)).
Proof.
  split; [discriminate | apply (divisor_is_xor_not_power 5000000 6); discriminate].
Defined.

End UnitConversion.

(** * Facts about decimal text *)

Section TextFacts.
Import Text.

Lemma digit_char_facts (d : Z) :
  0 <= d <= 9 ->
  is_digit (digit_char d) = true /\ digit_val (digit_char d) = d /\
  Ascii.eqb (digit_char d) "-"%char = false /\
  Ascii.eqb (digit_char d) "+"%char = false.
Proof.
  intros Hd.
  assert (Hc : d = 0 \/ d = 1 \/ d = 2 \/ d = 3 \/ d = 4 \/ d = 5 \/ d = 6 \/
               d = 7 \/ d = 8 \/ d = 9) by lia.
  repeat (destruct Hc as [Hc|Hc]; [subst d; vm_compute; auto|]).
  subst d; vm_compute; auto.
Qed.

Lemma digits_onto_S (fuel : nat) (n : Z) (acc : list ascii) :
  digits_onto (S fuel) n acc
  = if n <? 10 then digit_char (n mod 10) :: acc
    else digits_onto fuel (n / 10) (digit_char (n mod 10) :: acc).
Proof. reflexivity. Qed.

(** Scanning the digits written for [n] reads [n] back. *)
Lemma scan_digits_onto (fuel : nat) :
  forall (n : Z) (acc : list ascii) (a : Z) (c : nat),
    0 <= n < 10 ^ Z.of_nat (S fuel) ->
    exists (k : nat) (d : Z) (rest : list ascii),
      digits_onto (S fuel) n acc = digit_char d :: rest /\ 0 <= d <= 9 /\
      scan_digits (digits_onto (S fuel) n acc) a c
        = scan_digits acc (a * 10 ^ Z.of_nat (S k) + n) (c + S k).
Proof.
  induction fuel as [|fuel IH]; intros n acc a c Hn.
  - change (10 ^ Z.of_nat 1) with 10 in Hn.
    exists 0%nat, n, acc. rewrite digits_onto_S.
    destruct (Z.ltb_spec n 10); [|lia].
    rewrite Z.mod_small by lia.
    destruct (digit_char_facts n ltac:(lia)) as (Hd & Hv & _).
    split; [reflexivity|]. split; [lia|].
    cbn [scan_digits]. rewrite Hd, Hv.
    change (10 ^ Z.of_nat 1) with 10. f_equal. lia.
  - rewrite (digits_onto_S (S fuel)).
    assert (Hm := Z.mod_pos_bound n 10 ltac:(lia)).
    destruct (digit_char_facts (n mod 10) ltac:(lia)) as (Hd & Hv & _).
    destruct (Z.ltb_spec n 10) as [Hlt|Hge].
    + exists 0%nat, (n mod 10), acc.
      split; [reflexivity|]. split; [lia|].
      cbn [scan_digits]. rewrite Hd, Hv.
      change (10 ^ Z.of_nat 1) with 10. rewrite Z.mod_small by lia. f_equal. lia.
    + assert (Hq : 0 <= n / 10 < 10 ^ Z.of_nat (S fuel)).
      { split; [apply Z.div_pos; lia|].
        apply Z.div_lt_upper_bound; [lia|].
        replace (Z.of_nat (S (S fuel))) with (Z.succ (Z.of_nat (S fuel))) in Hn by lia.
        rewrite Z.pow_succ_r in Hn by lia. lia. }
      destruct (IH (n / 10) (digit_char (n mod 10) :: acc) a c Hq)
        as (k & d & rest & Hhead & Hdr & Hscan).
      exists (S k), d, rest. split; [exact Hhead|]. split; [exact Hdr|].
      rewrite Hscan. cbn [scan_digits]. rewrite Hd, Hv.
      replace (Z.of_nat (S (S k))) with (Z.succ (Z.of_nat (S k))) by lia.
      rewrite Z.pow_succ_r by lia.
      assert (Hdm := Z.div_mod n 10 ltac:(lia)).
      f_equal; lia.
Qed.

Lemma digits_fuel_enough (n : Z) :
  0 <= n -> n < 10 ^ Z.of_nat (S (Z.to_nat (Z.log2 n))).
Proof.
  intros Hn.
  destruct (Z.eq_dec n 0) as [->|Hz]; [vm_compute; reflexivity|].
  destruct (Z.log2_spec n ltac:(lia)) as [_ Hu].
  assert (Hl := Z.log2_nonneg n).
  replace (Z.of_nat (S (Z.to_nat (Z.log2 n)))) with (Z.succ (Z.log2 n)) by lia.
  apply Z.lt_le_trans with (2 ^ Z.succ (Z.log2 n)); [exact Hu|].
  apply Z.pow_le_mono_l. lia.
Qed.

(** What [SetString] finds in a sign, the digits of [n], a point and
    anything after it. *)
Lemma scan_digits_point (n : Z) (tail : list ascii) :
  0 <= n ->
  exists (k : nat) (d : Z) (rest : list ascii),
    digits n ++ "."%char :: tail = digit_char d :: rest /\ 0 <= d <= 9 /\
    scan_digits (digits n ++ "."%char :: tail) 0 0
      = (n, S k, "."%char :: tail).
Proof.
  intros Hn. unfold digits.
  set (fuel := Z.to_nat (Z.log2 n)).
  assert (Hf := digits_fuel_enough n Hn). fold fuel in Hf.
  assert (Happ : forall f m acc, digits_onto f m acc = digits_onto f m [] ++ acc).
  { induction f as [|f IHf]; intros m acc; [reflexivity|].
    rewrite !digits_onto_S. destruct (m <? 10); [reflexivity|].
    rewrite (IHf _ (_ :: acc)), (IHf _ [_]). rewrite <- app_assoc. reflexivity. }
  rewrite <- Happ.
  destruct (scan_digits_onto fuel n ("."%char :: tail) 0 0%nat (conj Hn Hf))
    as (k & d & rest & Hhead & Hd & Hscan).
  exists k, d, rest. split; [exact Hhead|]. split; [exact Hd|].
  rewrite Hscan. cbn [scan_digits]. reflexivity.
Qed.

End TextFacts.

(** * Bounds on rounded float64 results *)

Section Float64Bounds.
Import Rounding Float64.

Lemma dyadic_le (m e c k : Z) :
  0 <= m <= c -> e <= k -> 0 <= k ->
  dyadic_num m e <= c * 2 ^ k * dyadic_den e.
Proof.
  intros Hm He Hk. unfold dyadic_num, dyadic_den.
  assert (Pk : 0 < 2 ^ k) by (apply Z.pow_pos_nonneg; lia).
  destruct (Z_le_gt_dec 0 e) as [H0|H0].
  - rewrite (Z.max_r 0 e), (Z.max_l 0 (- e)) by lia. change (2 ^ 0) with 1.
    assert (2 ^ e <= 2 ^ k) by (apply Z.pow_le_mono_r; lia).
    assert (0 < 2 ^ e) by (apply Z.pow_pos_nonneg; lia). nia.
  - rewrite (Z.max_l 0 e), (Z.max_r 0 (- e)) by lia. change (2 ^ 0) with 1.
    assert (0 < 2 ^ (- e)) by (apply Z.pow_pos_nonneg; lia).
    assert (1 <= 2 ^ k * 2 ^ (- e)) by nia.
    rewrite <- Z.mul_assoc. nia.
Qed.

Lemma dyadic_le_half (m e k : Z) :
  0 <= m <= 2 ^ 53 -> e <= k - 1 -> 0 <= k ->
  dyadic_num m e <= 2 ^ 52 * 2 ^ k * dyadic_den e.
Proof.
  intros Hm He Hk. unfold dyadic_num, dyadic_den.
  assert (Pk : 0 < 2 ^ k) by (apply Z.pow_pos_nonneg; lia).
  assert (H53 : 2 ^ 53 = 2 * 2 ^ 52) by reflexivity.
  destruct (Z_le_gt_dec 0 e) as [H0|H0].
  - rewrite (Z.max_r 0 e), (Z.max_l 0 (- e)) by lia. change (2 ^ 0) with 1.
    assert (2 * 2 ^ e <= 2 ^ k).
    { rewrite <- Z.pow_succ_r by lia. apply Z.pow_le_mono_r; lia. }
    assert (0 < 2 ^ e) by (apply Z.pow_pos_nonneg; lia). nia.
  - rewrite (Z.max_l 0 e), (Z.max_r 0 (- e)) by lia. change (2 ^ 0) with 1.
    assert (2 ^ 1 <= 2 ^ (- e)) by (apply Z.pow_le_mono_r; lia).
    change (2 ^ 1) with 2 in *.
    assert (2 <= 2 ^ k * 2 ^ (- e)) by nia.
    rewrite <- Z.mul_assoc. nia.
Qed.

(** A quotient below the midpoint under [t * 2 ^ k] rounds to at most
    [(t - 1) * 2 ^ k]. *)
Lemma of_ratio_below (s : bool) (a b t k : Z) :
  0 <= a -> 0 < b -> 2 ^ 52 < t <= 2 ^ 53 -> 0 <= k < etop ->
  2 * a < (2 * t - 1) * 2 ^ k * b ->
  bounded_by s ((t - 1) * 2 ^ k) (of_ratio s a b).
Proof.
  intros Ha Hb Ht Hk Hlt. unfold of_ratio.
  destruct (Z.eqb_spec a 0) as [|Hnz]; [exact I|].
  assert (Ha' : 0 < a) by lia.
  assert (Pk : 0 < 2 ^ k) by (apply Z.pow_pos_nonneg; lia).
  assert (H53 : 2 ^ 53 = 2 * 2 ^ 52) by reflexivity.
  assert (HL : ratio_log2 a b < 53 + k).
  { apply ratio_log2_lt; try assumption.
    unfold ge_pow2. rewrite Z.max_r, Z.max_l by lia.
    rewrite (pow2_split 53 k) by lia. change (2 ^ 0) with 1. nia. }
  destruct (ratio_log2_spec a b Ha' Hb) as [_ HL1].
  unfold round_ratio, ulp_exp, prec, emin.
  set (e0 := Z.max (ratio_log2 a b + 1 - 53) (-1074)).
  assert (He0 : e0 <= k) by (unfold e0; lia).
  assert (HD := pow2_max_pos (- e0)). assert (HU := pow2_max_pos e0).
  assert (Hm0 : 0 <= scaled_rne a b e0 <= 2 ^ 53).
  { unfold scaled_rne. split; [apply div_rne_nonneg; nia|].
    assert (Hn : ~ ge_pow2 a b (e0 + 53)).
    { intro H. apply HL1.
      apply (ge_pow2_antitone a b _ (e0 + 53)); [lia | unfold e0; lia | exact H]. }
    rewrite ge_pow2_split_exp in Hn by lia.
    replace (2 ^ 53) with ((2 ^ 53 + 1) - 1) by lia.
    apply div_rne_below; nia. }
  cbv zeta.
  destruct (Z.eqb_spec (scaled_rne a b e0) (2 ^ 53)) as [Heq|Hne].
  - (* the significand carried into the next binade *)
    change (2 ^ (53 - 1)) with (Z.pos 4503599627370496).
    assert (Hk' : e0 < k).
    { destruct (Z.eq_dec e0 k) as [->|]; [|lia]. exfalso.
      unfold scaled_rne in Heq.
      assert (Hq : div_rne (a * 2 ^ Z.max 0 (- k)) (b * 2 ^ Z.max 0 k) <= t - 1).
      { apply div_rne_below; try nia.
        rewrite (Z.max_l 0 (- k)), (Z.max_r 0 k) by lia. change (2 ^ 0) with 1. nia. }
      lia. }
    destruct (Z.leb_spec (e0 + 1) etop); [|unfold etop in *; lia].
    split; [reflexivity|].
    apply Z.le_trans with (2 ^ 52 * 2 ^ k * dyadic_den (e0 + 1)).
    + apply dyadic_le; lia.
    + assert (Hden := dyadic_den_pos (e0 + 1)). nia.
  - destruct (scaled_rne a b e0) as [|mp|mp] eqn:Hm; try exact I.
    destruct (Z.leb_spec e0 etop); [|unfold etop in *; lia].
    split; [reflexivity|].
    destruct (Z.eq_dec e0 k) as [Hek|Hek].
    + assert (Hq : Z.pos mp <= t - 1).
      { rewrite <- Hm. unfold scaled_rne. rewrite Hek.
        apply div_rne_below; try nia.
        rewrite (Z.max_l 0 (- k)), (Z.max_r 0 k) by lia. change (2 ^ 0) with 1. nia. }
      rewrite Hek. unfold dyadic_num, dyadic_den.
      rewrite (Z.max_l 0 (- k)), (Z.max_r 0 k) by lia. change (2 ^ 0) with 1. nia.
    + apply Z.le_trans with (2 ^ 52 * 2 ^ k * dyadic_den e0).
      * apply dyadic_le_half; lia.
      * assert (Hden := dyadic_den_pos e0). nia.
Qed.

(** The integer part of a bounded number is bounded. *)
Lemma trunc_bounded (s : bool) (c : Z) (x : float64) :
  0 <= c -> bounded_by s c x ->
  exists z, trunc x = Some z /\ (if s then - c <= z <= 0 else 0 <= z <= c).
Proof.
  intros Hc Hx. destruct x as [s'| | |s' m e]; try contradiction.
  - exists 0. split; [reflexivity|]. destruct s; lia.
  - destruct Hx as [-> Hle]. cbn [trunc].
    unfold dyadic_num, dyadic_den in Hle.
    assert (Hz : 0 <= (if 0 <=? e then Z.pos m * 2 ^ e else Z.pos m / 2 ^ (- e)) <= c).
    { destruct (Z.leb_spec 0 e).
      - rewrite (Z.max_r 0 e), (Z.max_l 0 (- e)) in Hle by lia.
        change (2 ^ 0) with 1 in Hle.
        assert (0 < 2 ^ e) by (apply Z.pow_pos_nonneg; lia). nia.
      - rewrite (Z.max_l 0 e), (Z.max_r 0 (- e)) in Hle by lia.
        change (2 ^ 0) with 1 in Hle.
        assert (0 < 2 ^ (- e)) by (apply Z.pow_pos_nonneg; lia).
        split; [apply Z.div_pos; lia|].
        apply Z.div_le_upper_bound; nia. }
    eexists. split; [reflexivity|]. destruct s; cbn [cond_Zopp]; lia.
Qed.

Lemma digits2_pos_bound (m : positive) : Zpos m < 2 ^ Zpos (digits2_pos m).
Proof.
  induction m as [m IH|m IH|]; cbn [digits2_pos].
  - rewrite Pos2Z.inj_succ, Z.pow_succ_r by lia. lia.
  - rewrite Pos2Z.inj_succ, Z.pow_succ_r by lia. lia.
  - reflexivity.
Qed.

(** A valid binary64 has a significand below [2 ^ 53]. *)
Lemma valid_mantissa (s : bool) (m : positive) (e : Z) :
  valid_binary prec emax (S754_finite s m e) = true -> Zpos m < 2 ^ 53.
Proof.
  cbn [valid_binary]. unfold bounded, canonical_mantissa, fexp, SpecFloat.emin.
  intros H. apply andb_prop in H. destruct H as [H _].
  apply Z.eqb_eq in H. unfold prec, emax in H.
  assert (Hd := digits2_pos_bound m).
  apply Z.lt_le_trans with (2 ^ Zpos (digits2_pos m)); [exact Hd|].
  apply Z.pow_le_mono_r; lia.
Qed.

End Float64Bounds.

(** * Rounding depends on the quotient only *)

Section RatioInvariance.
Import Rounding.

Lemma div_rne_scale (c a b : Z) :
  0 < c -> 0 < b -> div_rne (c * a) (c * b) = div_rne a b.
Proof.
  intros Hc Hb. unfold div_rne.
  rewrite Z.div_mul_cancel_l by lia.
  rewrite Z.mul_mod_distr_l by lia.
  replace (2 * (c * (a mod b))) with (c * (2 * (a mod b))) by ring.
  rewrite <- (Zmult_compare_compat_l (2 * (a mod b)) b c) by lia.
  reflexivity.
Qed.

Lemma div_rne_ratio (a b a' b' : Z) :
  0 < b -> 0 < b' -> a * b' = a' * b -> div_rne a b = div_rne a' b'.
Proof.
  intros Hb Hb' H.
  rewrite <- (div_rne_scale b' a b) by lia.
  rewrite <- (div_rne_scale b a' b') by lia.
  f_equal; lia.
Qed.

Lemma ge_pow2_ratio (a b a' b' k : Z) :
  0 < b -> 0 < b' -> a * b' = a' * b -> ge_pow2 a b k -> ge_pow2 a' b' k.
Proof.
  unfold ge_pow2. intros Hb Hb' H Hge.
  assert (HX := pow2_max_pos k). assert (HY := pow2_max_pos (- k)).
  set (X := 2 ^ Z.max 0 k) in *. set (Y := 2 ^ Z.max 0 (- k)) in *.
  apply (Z.mul_le_mono_pos_l _ _ b Hb).
  replace (b * (a' * Y)) with ((a' * b) * Y) by ring. rewrite <- H.
  nia.
Qed.

Lemma ratio_log2_ratio (a b a' b' : Z) :
  0 < a -> 0 < b -> 0 < a' -> 0 < b' -> a * b' = a' * b ->
  ratio_log2 a b = ratio_log2 a' b'.
Proof.
  intros Ha Hb Ha' Hb' H.
  destruct (ratio_log2_spec a' b' Ha' Hb') as [H1 H2].
  apply ratio_log2_unique; try assumption.
  - apply (ge_pow2_ratio a' b' a b); try assumption. lia.
  - intro Hge. apply H2. apply (ge_pow2_ratio a b a' b'); assumption.
Qed.

Lemma round_ratio_ratio (p : Z) (emin : option Z) (a b a' b' : Z) :
  0 < a -> 0 < b -> 0 < a' -> 0 < b' -> a * b' = a' * b ->
  round_ratio p emin a b = round_ratio p emin a' b'.
Proof.
  intros Ha Hb Ha' Hb' H. unfold round_ratio, ulp_exp.
  rewrite (ratio_log2_ratio a b a' b') by assumption.
  set (e := match emin with
            | Some lo => Z.max (ratio_log2 a' b' + 1 - p) lo
            | None => ratio_log2 a' b' + 1 - p
            end).
  assert (Hs : scaled_rne a b e = scaled_rne a' b' e).
  { unfold scaled_rne.
    assert (HU := pow2_max_pos e). assert (HD := pow2_max_pos (- e)).
    apply div_rne_ratio; nia. }
  cbv zeta. rewrite Hs. reflexivity.
Qed.

End RatioInvariance.

(** * The relative error of one float64 rounding *)

Section RelativeError.
Import Rounding Float64.

Lemma ratio_log2_ge (a b k : Z) :
  0 < a -> 0 < b -> ge_pow2 a b k -> k <= ratio_log2 a b.
Proof.
  intros Ha Hb Hk.
  destruct (ratio_log2_spec a b Ha Hb) as [_ H1].
  destruct (Z_le_gt_dec k (ratio_log2 a b)); [assumption|].
  exfalso. apply H1. apply (ge_pow2_antitone a b _ k); try lia. exact Hk.
Qed.

(** In the normal range the binary64 nearest to [a / b] is within
    [2^-53] of it, relatively. *)
Lemma of_ratio_rel_error (a b : Z) :
  0 < a -> 0 < b -> ge_pow2 a b (-1022) -> ~ ge_pow2 a b 1023 ->
  exists m e,
    of_ratio false a b = S754_finite false m e /\
    2 ^ 53 * Z.abs (dyadic_num (Zpos m) e * b - a * dyadic_den e)
      <= a * dyadic_den e.
Proof.
  intros Ha Hb Hlo Hhi.
  assert (HL1 := ratio_log2_ge a b _ Ha Hb Hlo).
  assert (HL2 := ratio_log2_lt a b _ Ha Hb Hhi).
  destruct (ratio_log2_spec a b Ha Hb) as [HL _].
  unfold of_ratio. destruct (Z.eqb_spec a 0); [lia|].
  unfold round_ratio, ulp_exp, prec, emin.
  rewrite Z.max_l by lia.
  set (e0 := ratio_log2 a b + 1 - 53) in *.
  replace (ratio_log2 a b) with (e0 + 52) in HL by (unfold e0; lia).
  rewrite ge_pow2_split_exp in HL by lia.
  assert (HU := pow2_max_pos e0). assert (HD := pow2_max_pos (- e0)).
  unfold scaled_rne.
  assert (Hq := div_rne_bounds (a * 2 ^ Z.max 0 (- e0)) (b * 2 ^ Z.max 0 e0)
                  ltac:(nia) ltac:(nia)).
  assert (Hm1 : 2 ^ 52 <= div_rne (a * 2 ^ Z.max 0 (- e0)) (b * 2 ^ Z.max 0 e0)).
  { apply div_rne_above; nia. }
  set (m0 := div_rne (a * 2 ^ Z.max 0 (- e0)) (b * 2 ^ Z.max 0 e0)) in *.
  set (U := 2 ^ Z.max 0 e0) in *. set (D := 2 ^ Z.max 0 (- e0)) in *.
  change (2 ^ 52) with 4503599627370496 in *.
  change (2 ^ 53) with 9007199254740992 in *.
  assert (I0 : 9007199254740992 * Z.abs (m0 * U * b - a * D) <= a * D) by lia.
  cbv zeta.
  destruct (Z.eqb_spec m0 9007199254740992) as [Heq|Hne].
  - change (2 ^ (53 - 1)) with (Z.pos 4503599627370496).
    destruct (Z.leb_spec (e0 + 1) etop); [|unfold etop, e0 in *; lia].
    exists 4503599627370496%positive, (e0 + 1). split; [reflexivity|].
    assert (Hsh := dyadic_shift 4503599627370496 (e0 + 1) 1 ltac:(lia)).
    replace (Z.opp 1 + (e0 + 1)) with e0 in Hsh by lia.
    unfold is_dyadic in Hsh. change (2 ^ 1 * 4503599627370496) with 9007199254740992 in Hsh.
    unfold dyadic_num at 1 in Hsh. unfold dyadic_den at 2 in Hsh. fold U D in Hsh.
    assert (HD1 := dyadic_den_pos (e0 + 1)).
    set (N1 := dyadic_num 4503599627370496 (e0 + 1)) in *.
    set (D1 := dyadic_den (e0 + 1)) in *.
    rewrite Heq in I0.
    assert (Hrel : (N1 * b - a * D1) * D = (9007199254740992 * U * b - a * D) * D1)
      by nia.
    apply (Z.mul_le_mono_pos_r _ _ D HD).
    rewrite <- Z.mul_assoc. rewrite <- (Z.abs_eq D) at 1 by lia.
    rewrite <- Z.abs_mul, Hrel, Z.abs_mul, (Z.abs_eq D1) by lia.
    assert (I1 := Z.mul_le_mono_nonneg_r _ _ D1 ltac:(lia) I0). lia.
  - destruct m0 as [|mp|mp] eqn:Hm0; try lia.
    destruct (Z.leb_spec e0 etop); [|unfold etop, e0 in *; lia].
    exists mp, e0. split; [reflexivity|].
    unfold dyadic_num, dyadic_den. fold U D. exact I0.
Qed.

End RelativeError.

(** * transfer-eth: the value in base units *)

Section WeiValue.
Import Rounding Float64 Main.

(** [float64(1e18)]: the significand is [5^18 * 2^11]. *)
Lemma of_int_1e18 : of_int (10 ^ 18) = S754_finite false 7812500000000000 7.
Proof. vm_compute. reflexivity. Qed.

Lemma mul_1e18 (s : bool) (m : positive) (e : Z) :
  mul (S754_finite s m e) (of_int (10 ^ 18))
  = of_ratio s (dyadic_num (Zpos m * 7812500000000000) (e + 7)) (dyadic_den (e + 7)).
Proof. rewrite of_int_1e18. cbn [mul]. rewrite xorb_false_r. reflexivity. Qed.

(** The fraction [mul] rounds is the exact product [m * 2^e * 10^18]. *)
Lemma product_exact (m e : Z) :
  dyadic_num (m * 7812500000000000) (e + 7) * dyadic_den e
  = dyadic_num m e * 10 ^ 18 * dyadic_den (e + 7).
Proof.
  unfold dyadic_num, dyadic_den.
  assert (H18 : 10 ^ 18 = 7812500000000000 * 2 ^ 7) by reflexivity.
  rewrite H18.
  transitivity (m * 7812500000000000 * 2 ^ (Z.max 0 (e + 7) + Z.max 0 (- e))).
  - rewrite Z.pow_add_r by lia. ring.
  - replace (Z.max 0 (e + 7) + Z.max 0 (- e))
      with (Z.max 0 e + 7 + Z.max 0 (- (e + 7))) by lia.
    rewrite !Z.pow_add_r by lia. ring.
Qed.

(** No binary64 times [10^18] lies in the last half-unit below [2^63]:
    a product that rounds up to [2^63] is at least [2^63] itself. *)
Lemma no_near_miss (m e : Z) :
  0 < m < 2 ^ 53 ->
  (2 ^ 54 - 1) * 2 ^ 10 * dyadic_den (e + 7)
    <= 2 * dyadic_num (m * 7812500000000000) (e + 7) ->
  2 ^ 63 * dyadic_den (e + 7) <= dyadic_num (m * 7812500000000000) (e + 7).
Proof.
  intros Hm. unfold dyadic_num, dyadic_den.
  destruct (Z_le_gt_dec 0 (e + 7)) as [He|He].
  - rewrite (Z.max_r 0 (e + 7)), (Z.max_l 0 (- (e + 7))) by lia.
    change (2 ^ 0) with 1.
    assert (0 < 2 ^ (e + 7)) by (apply Z.pow_pos_nonneg; lia).
    set (X := m * 2 ^ (e + 7)).
    replace (m * 7812500000000000 * 2 ^ (e + 7)) with (7812500000000000 * X)
      by (unfold X; ring).
    change (2 ^ 54) with 18014398509481984. change (2 ^ 10) with 1024.
    change (2 ^ 63) with 9223372036854775808. lia.
  - rewrite (Z.max_l 0 (e + 7)), (Z.max_r 0 (- (e + 7))) by lia.
    change (2 ^ 0) with 1.
    set (j := - (e + 7)). assert (Hj : 0 < j) by (unfold j; lia).
    assert (HP : 0 < 2 ^ j) by (apply Z.pow_pos_nonneg; lia).
    change (2 ^ 54) with 18014398509481984. change (2 ^ 10) with 1024.
    change (2 ^ 63) with 9223372036854775808.
    change (2 ^ 53) with 9007199254740992 in Hm.
    destruct (Z_le_gt_dec 43 j) as [Hbig|Hsmall].
    + assert (2 ^ 43 <= 2 ^ j) by (apply Z.pow_le_mono_r; lia).
      change (2 ^ 43) with 8796093022208 in *. lia.
    + assert (HPQ : 2 ^ j * 2 ^ (42 - j) = 2 ^ 42).
      { rewrite <- Z.pow_add_r by lia. f_equal. lia. }
      assert (HQ : 0 < 2 ^ (42 - j)) by (apply Z.pow_pos_nonneg; lia).
      change (2 ^ 42) with 4398046511104 in HPQ.
      set (P := 2 ^ j) in *. set (Q := 2 ^ (42 - j)) in *.
      intros H1.
      destruct (Z_le_gt_dec (9223372036854775808 * P) (m * 7812500000000000 * 1))
        as [?|H2]; [assumption|exfalso].
      assert (H1' : (18014398509481984 - 1) * 1024 * P * Q
                    <= 2 * (m * 7812500000000000 * 1) * Q)
        by (apply Z.mul_le_mono_nonneg_r; lia).
      assert (H2' : m * 7812500000000000 * 1 * Q < 9223372036854775808 * P * Q)
        by (apply Z.mul_lt_mono_pos_r; lia).
      set (X := m * Q) in *.
      replace ((18014398509481984 - 1) * 1024 * P * Q)
        with ((18014398509481984 - 1) * 1024 * (P * Q)) in H1' by ring.
      replace (9223372036854775808 * P * Q)
        with (9223372036854775808 * (P * Q)) in H2' by ring.
      rewrite HPQ in H1', H2'.
      replace (2 * (m * 7812500000000000 * 1) * Q)
        with (15625000000000000 * X) in H1' by (unfold X; ring).
      replace (m * 7812500000000000 * 1 * Q)
        with (7812500000000000 * X) in H2' by (unfold X; ring).
      lia.
Qed.

Lemma int64_of_float64_range (pf : Platform) (x : float64) :
  - 2 ^ 63 <= int64_of_float64 pf x <= 2 ^ 63 - 1.
Proof.
  unfold int64_of_float64.
  destruct (trunc x) as [z|]; [|apply unrepresentable_int64].
  destruct (Z.leb_spec (- 2 ^ 63) z); cbn [andb]; [|apply unrepresentable_int64].
  destruct (Z.leb_spec z (2 ^ 63 - 1)); [lia|apply unrepresentable_int64].
Qed.

(** A product beyond [int64] comes from an exact product beyond it. *)
Lemma exceeding_product (s : bool) (m : positive) (e : Z) :
  Zpos m < 2 ^ 53 ->
  exceeds_int64 (mul (S754_finite s m e) (of_int (10 ^ 18))) ->
  if s
  then (2 ^ 63 + 1024) * dyadic_den e <= dyadic_num (Zpos m) e * 10 ^ 18
  else 2 ^ 63 * dyadic_den e <= dyadic_num (Zpos m) e * 10 ^ 18.
Proof.
  intros Hm Hex. rewrite mul_1e18 in Hex.
  assert (Hpe := product_exact (Zpos m) e).
  assert (HB := dyadic_den_pos (e + 7)). assert (HD := dyadic_den_pos e).
  assert (HA := dyadic_num_pos (Zpos m * 7812500000000000) (e + 7) ltac:(lia)).
  set (A := dyadic_num (Zpos m * 7812500000000000) (e + 7)) in *.
  set (B := dyadic_den (e + 7)) in *.
  set (N := dyadic_num (Zpos m) e * 10 ^ 18) in *.
  set (D := dyadic_den e) in *.
  destruct s.
  - destruct (Z_lt_ge_dec (2 * A) ((2 * (2 ^ 52 + 1) - 1) * 2 ^ 11 * B)) as [Hlt|Hge].
    + exfalso.
      assert (Hb := of_ratio_below true A B (2 ^ 52 + 1) 11 ltac:(lia) HB
                      ltac:(lia) ltac:(unfold etop; lia) Hlt).
      apply trunc_bounded in Hb; [|lia].
      destruct Hb as (z & Hz & Hr). unfold exceeds_int64 in Hex. rewrite Hz in Hex.
      change ((2 ^ 52 + 1 - 1) * 2 ^ 11) with (2 ^ 63) in Hr. lia.
    + change ((2 * (2 ^ 52 + 1) - 1) * 2 ^ 11) with (2 * (2 ^ 63 + 1024)) in Hge.
      apply (Z.mul_le_mono_pos_r _ _ B HB).
      replace (N * B) with (A * D) by (unfold N, B; lia). nia.
  - destruct (Z_lt_ge_dec (2 * A) ((2 * 2 ^ 53 - 1) * 2 ^ 10 * B)) as [Hlt|Hge].
    + exfalso.
      assert (Hb := of_ratio_below false A B (2 ^ 53) 10 ltac:(lia) HB
                      ltac:(lia) ltac:(unfold etop; lia) Hlt).
      apply trunc_bounded in Hb; [|lia].
      destruct Hb as (z & Hz & Hr). unfold exceeds_int64 in Hex. rewrite Hz in Hex.
      change ((2 ^ 53 - 1) * 2 ^ 10) with (2 ^ 63 - 1024) in Hr. lia.
    + assert (Hnm := no_near_miss (Zpos m) e ltac:(lia)).
      fold A B in Hnm.
      change (2 * 2 ^ 53 - 1) with (2 ^ 54 - 1) in Hge.
      specialize (Hnm ltac:(lia)).
      apply (Z.mul_le_mono_pos_r _ _ B HB).
      replace (N * B) with (A * D) by (unfold N, B; lia). nia.
Qed.

End WeiValue.

(** * The commands, step by step *)

Section CommandFacts.
Import Float64 Main.
Context {address ABI SignedTx : Type}.
Variable w : World address ABI SignedTx.
Variable cfg : Config.
Variable pf : Platform.

Lemma in_range_at (accounts : list (Account address)) (index : Z)
    (a : Account address) :
  0 <= index -> nth_error accounts (Z.to_nat index) = Some a ->
  out_of_range index accounts = false.
Proof.
  intros Hi Hn. unfold out_of_range.
  assert (Hlt : (Z.to_nat index < List.length accounts)%nat).
  { apply nth_error_Some. rewrite Hn. discriminate. }
  apply orb_false_iff. split.
  - apply Z.ltb_ge. exact Hi.
  - apply Z.leb_gt. lia.
Qed.

(** [transferEth], one case per way it can end. *)
Lemma transferEth_cases (fromIndex : Z) (toAddress : string) (amount : float64) :
  let url := ethNodeURL cfg in
  let pw := keystorePassword cfg in
  let t3 := [EvDial url; EvNewKeyStore (keystoreDir cfg); EvAccounts] in
  transferEth w cfg pf fromIndex toAddress amount =
  match Dial w url with
  | Some e =>
      ([EvDial url], Fail (Wrap "failed to connect to the Ethereum client: %w" e))
  | None =>
  if out_of_range fromIndex (Accounts w)
  then (t3, Fail (Errorf "invalid sender account index"))
  else
  match nth_error (Accounts w) (Z.to_nat fromIndex) with
  | None => (t3, Panicked "index out of range")
  | Some account =>
  let t4 := t3 ++ [EvUnlock account pw] in
  match Unlock w account pw with
  | Some e => (t4, Fail (Wrap "failed to unlock account: %w" e))
  | None =>
  let t5 := t4 ++ [EvPendingNonceAt (Address account)] in
  match PendingNonceAt w (Address account) with
  | inl e => (t5, Fail (Wrap "failed to get nonce: %w" e))
  | inr nonce =>
  let t6 := t5 ++ [EvSuggestGasPrice] in
  match SuggestGasPrice w with
  | inl e => (t6, Fail (Wrap "failed to get gas price: %w" e))
  | inr gasPrice =>
  let tx := ethTx w pf toAddress amount nonce gasPrice in
  let t7 := t6 ++ [EvSignTx account tx (chainId cfg)] in
  match SignTx w account tx (chainId cfg) with
  | inl e => (t7, Fail (Wrap "failed to sign transaction: %w" e))
  | inr signedTx =>
  let t8 := t7 ++ [EvSendTransaction signedTx] in
  match SendTransaction w signedTx with
  | Some e => (t8, Fail (Wrap "failed to send transaction: %w" e))
  | None =>
      (t8 ++ [EvPrintf "Transaction sent: %s\n" [TxHashHex w signedTx]], Ret tt)
  end end end end end end end.
Proof.
  cbv zeta. unfold transferEth, ethTx.
  destruct (Dial w (ethNodeURL cfg)); [reflexivity|]. step.
  destruct (out_of_range fromIndex (Accounts w)); [reflexivity|].
  unfold account_at.
  destruct (nth_error (Accounts w) (Z.to_nat fromIndex)) as [account|];
    [|reflexivity]. step.
  destruct (Unlock w account (keystorePassword cfg)); [reflexivity|]. step.
  destruct (PendingNonceAt w (Address account)); [reflexivity|]. step.
  destruct (SuggestGasPrice w); [reflexivity|]. step.
  destruct (SignTx w account _ (chainId cfg)); [reflexivity|]. step.
  destruct (SendTransaction w _); reflexivity.
Qed.

(** [transferToken] up to the unlock step. *)
Lemma transferToken_prefix (fromIndex : Z) (toAddress : string)
    (amount : float64) (tokenAddress : string) (decimal : Z) :
  let url := ethNodeURL cfg in
  let pw := keystorePassword cfg in
  let t3 := [EvDial url; EvNewKeyStore (keystoreDir cfg); EvAccounts] in
  match Dial w url with
  | Some e =>
      transferToken w cfg fromIndex toAddress amount tokenAddress decimal
      = ([EvDial url], Fail (Wrap "failed to connect to the Ethereum client: %w" e))
  | None =>
  if out_of_range fromIndex (Accounts w)
  then transferToken w cfg fromIndex toAddress amount tokenAddress decimal
       = (t3, Fail (Errorf "invalid sender account index"))
  else
  match nth_error (Accounts w) (Z.to_nat fromIndex) with
  | None => True
  | Some account =>
  match Unlock w account pw with
  | Some e =>
      transferToken w cfg fromIndex toAddress amount tokenAddress decimal
      = (t3 ++ [EvUnlock account pw], Fail (Wrap "failed to unlock account: %w" e))
  | None => True
  end end end.
Proof.
  cbv zeta. unfold transferToken.
  destruct (Dial w (ethNodeURL cfg)); [reflexivity|]. step.
  destruct (out_of_range fromIndex (Accounts w)); [reflexivity|].
  unfold account_at.
  destruct (nth_error (Accounts w) (Z.to_nat fromIndex)) as [account|];
    [|exact I]. step.
  destruct (Unlock w account (keystorePassword cfg)); [reflexivity|exact I].
Qed.

(** [checkBalance] with an index out of range. *)
Lemma checkBalance_bad_index (index : Z) (tokenAddress : string) (decimal : Z) :
  out_of_range index (Accounts w) = true ->
  checkBalance w cfg index tokenAddress decimal
  = ([EvNewKeyStore (keystoreDir cfg); EvAccounts],
     Fail (Errorf "invalid account index")).
Proof. intros H. unfold checkBalance. step. rewrite H. reflexivity. Qed.

End CommandFacts.

(** * The transfer commands *)

Section Transfers.
Import Rounding Float64 Main.

(** C9: when the key store rejects the passphrase for the selected
    identity, [transferEth] and [transferToken] end in an error, their
    traces hold no signing request and no broadcast, and, the node being
    dialled, the error is the unlock error and the last call made is the
    unlock. *)
Theorem wrong_secret_never_signs {address ABI SignedTx : Type}
    (w : World address ABI SignedTx) (cfg : Config) (pf : Platform)
    (fromIndex : Z) (toAddress : string) (amount : float64)
    (tokenAddress : string) (decimal : Z)
    (account : Account address) (e : error) (r : M address SignedTx unit) :
  0 <= fromIndex ->
  nth_error (Accounts w) (Z.to_nat fromIndex) = Some account ->
  Unlock w account (keystorePassword cfg) = Some e ->
  r = transferEth w cfg pf fromIndex toAddress amount \/
  r = transferToken w cfg fromIndex toAddress amount tokenAddress decimal ->
  existsb sign_call (fst r) = false /\
  existsb broadcast_call (fst r) = false /\
  (exists err, snd r = Fail err) /\
  (Dial w (ethNodeURL cfg) = None ->
   snd r = Fail (Wrap "failed to unlock account: %w" e) /\
   last (fst r) EvAccounts = EvUnlock account (keystorePassword cfg)).
Proof.
  intros Hi Hn Hu Hr.
  assert (Hin := in_range_at (Accounts w) fromIndex account Hi Hn).
  assert (Hcase :
    r = match Dial w (ethNodeURL cfg) with
        | Some e' =>
            ([EvDial (ethNodeURL cfg)],
             Fail (Wrap "failed to connect to the Ethereum client: %w" e'))
        | None =>
            ([EvDial (ethNodeURL cfg); EvNewKeyStore (keystoreDir cfg); EvAccounts]
               ++ [EvUnlock account (keystorePassword cfg)],
             Fail (Wrap "failed to unlock account: %w" e))
        end).
  { destruct Hr as [-> | ->].
    - rewrite transferEth_cases. cbv zeta.
      destruct (Dial w (ethNodeURL cfg)); [reflexivity|].
      rewrite Hin, Hn, Hu. reflexivity.
    - assert (Hp := transferToken_prefix w cfg fromIndex toAddress amount
                      tokenAddress decimal).
      cbv zeta in Hp.
      destruct (Dial w (ethNodeURL cfg)); [exact Hp|].
      rewrite Hin, Hn, Hu in Hp. exact Hp. }
  rewrite Hcase.
  destruct (Dial w (ethNodeURL cfg)) as [e'|]; cbn.
  - repeat split; try reflexivity; [eexists; reflexivity | discriminate | discriminate].
  - repeat split; try reflexivity. eexists; reflexivity.
Qed.

Lemma wrong_secret_never_signs_witness :
  let r := transferEth Scenario.locked Scenario.config Scenario.amd64 0 "0xR"
             (of_ratio false 1 10) in
  existsb sign_call (fst r) = false /\
  existsb broadcast_call (fst r) = false /\
  (exists err, snd r = Fail err) /\
  (Dial Scenario.locked (ethNodeURL Scenario.config) = None ->
   snd r = Fail (Wrap "failed to unlock account: %w"
                   (Errorf "could not decrypt key with given password")) /\
   last (fst r) EvAccounts
     = EvUnlock Scenario.identityA (keystorePassword Scenario.config)).
Proof.
  intro r.
  apply (wrong_secret_never_signs Scenario.locked Scenario.config Scenario.amd64
           0 "0xR" (of_ratio false 1 10) "0xT" 6 Scenario.identityA
           (Errorf "could not decrypt key with given password") r).
  - lia.
  - reflexivity.
  - reflexivity.
  - left. reflexivity.
Defined.

(** C7: with an index out of range, [checkBalance] fails on the index
    before any call to the node, while [transferEth] and [transferToken]
    dial the node first: their traces start with the connection, and a
    failed connection is the error returned, not the index error. *)
Theorem transfers_dial_before_index_check {address ABI SignedTx : Type}
    (w : World address ABI SignedTx) (cfg : Config) (pf : Platform)
    (index : Z) (toAddress : string) (amount : float64)
    (tokenAddress : string) (decimal : Z) (r : M address SignedTx unit) :
  out_of_range index (Accounts w) = true ->
  r = transferEth w cfg pf index toAddress amount \/
  r = transferToken w cfg index toAddress amount tokenAddress decimal ->
  (existsb node_call (fst (checkBalance w cfg index tokenAddress decimal)) = false /\
   snd (checkBalance w cfg index tokenAddress decimal)
     = Fail (Errorf "invalid account index")) /\
  hd_error (fst r) = Some (EvDial (ethNodeURL cfg)) /\
  existsb node_call (fst r) = true /\
  (forall e, Dial w (ethNodeURL cfg) = Some e ->
     snd r = Fail (Wrap "failed to connect to the Ethereum client: %w" e)) /\
  (Dial w (ethNodeURL cfg) = None ->
     snd r = Fail (Errorf "invalid sender account index")).
Proof.
  intros Hout Hr.
  assert (Hcase :
    r = match Dial w (ethNodeURL cfg) with
        | Some e' =>
            ([EvDial (ethNodeURL cfg)],
             Fail (Wrap "failed to connect to the Ethereum client: %w" e'))
        | None =>
            ([EvDial (ethNodeURL cfg); EvNewKeyStore (keystoreDir cfg); EvAccounts],
             Fail (Errorf "invalid sender account index"))
        end).
  { destruct Hr as [-> | ->].
    - rewrite transferEth_cases. cbv zeta.
      destruct (Dial w (ethNodeURL cfg)); [reflexivity|].
      rewrite Hout. reflexivity.
    - assert (Hp := transferToken_prefix w cfg index toAddress amount
                      tokenAddress decimal).
      cbv zeta in Hp.
      destruct (Dial w (ethNodeURL cfg)); [exact Hp|].
      rewrite Hout in Hp. exact Hp. }
  split.
  - rewrite (checkBalance_bad_index w cfg index tokenAddress decimal Hout).
    split; reflexivity.
  - rewrite Hcase.
    destruct (Dial w (ethNodeURL cfg)) as [e'|]; cbn;
      repeat split; try reflexivity; try discriminate.
    intros e0 H0. inversion H0. reflexivity.
Qed.

Lemma transfers_dial_before_index_check_witness :
  let r := transferEth Scenario.unreachable Scenario.config Scenario.amd64 (-1)
             "0xR" (of_ratio false 1 10) in
  hd_error (fst r) = Some (EvDial (ethNodeURL Scenario.config)) /\
  snd r = Fail (Wrap "failed to connect to the Ethereum client: %w"
                  (Errorf "dial failed")).
Proof.
  intro r.
  destruct (transfers_dial_before_index_check Scenario.unreachable Scenario.config
              Scenario.amd64 (-1) "0xR" (of_ratio false 1 10) "0xT" 6 r)
    as (_ & Hhd & _ & Hfail & _).
  - reflexivity.
  - left. reflexivity.
  - split; [exact Hhd | apply Hfail; reflexivity].
Defined.

Lemma tenth_parsed :
  Strconv.ParseFloat "0.1" = Some (S754_finite false 7205759403792794 (-56)).
Proof. vm_compute. reflexivity. Qed.

Lemma wei_tenth (pf : Platform) :
  weiValue pf (S754_finite false 7205759403792794 (-56)) = 100000000000000000.
Proof.
  unfold weiValue, int64_of_float64.
  assert (H : trunc (mul (S754_finite false 7205759403792794 (-56)) (of_int (10 ^ 18)))
              = Some 100000000000000000) by (vm_compute; reflexivity).
  rewrite H. reflexivity.
Qed.

(** C4: transfer-eth from index 0 with amount 0.1, pending nonce 3 and
    gas price 20 asks the key store to sign the transaction with value
    100000000000000000, gas limit 21000 and nonce 3, and what it then
    sends to the node is the signed transaction the key store
    returned. *)
Theorem transfer_eth_tenth_scenario {address ABI SignedTx : Type}
    (w : World address ABI SignedTx) (cfg : Config) (pf : Platform)
    (toAddress : string) (amount : float64)
    (account : Account address) (rest : list (Account address))
    (signedTx : SignedTx) :
  Strconv.ParseFloat "0.1" = Some amount ->
  Accounts w = account :: rest ->
  Dial w (ethNodeURL cfg) = None ->
  Unlock w account (keystorePassword cfg) = None ->
  PendingNonceAt w (Address account) = inr 3 ->
  SuggestGasPrice w = inr 20 ->
  let tx := {| nonce := 3; to := HexToAddress w toAddress;
               value := 100000000000000000; gasLimit := 21000;
               gasPrice := 20; data := [] |} in
  SignTx w account tx (chainId cfg) = inr signedTx ->
  let calls := [EvDial (ethNodeURL cfg); EvNewKeyStore (keystoreDir cfg);
                EvAccounts; EvUnlock account (keystorePassword cfg);
                EvPendingNonceAt (Address account); EvSuggestGasPrice;
                EvSignTx account tx (chainId cfg);
                EvSendTransaction signedTx] in
  transferEth w cfg pf 0 toAddress amount =
  match SendTransaction w signedTx with
  | Some e => (calls, Fail (Wrap "failed to send transaction: %w" e))
  | None =>
      (calls ++ [EvPrintf "Transaction sent: %s\n" [TxHashHex w signedTx]], Ret tt)
  end.
Proof.
  intros Hp Ha Hd Hu Hn Hg tx Hs calls.
  rewrite tenth_parsed in Hp. injection Hp as <-.
  rewrite transferEth_cases. cbv zeta.
  rewrite Hd, Ha. cbn [out_of_range List.length Z.of_nat Z.ltb Z.leb Z.compare orb
                       Z.to_nat nth_error].
  rewrite Hu, Hn, Hg. unfold ethTx. rewrite wei_tenth. fold tx. rewrite Hs.
  destruct (SendTransaction w signedTx); reflexivity.
Qed.

Lemma transfer_eth_tenth_scenario_witness :
  transferEth Scenario.world Scenario.config Scenario.amd64 0 "0xRecipient"
    (S754_finite false 7205759403792794 (-56))
  = ([EvDial "https://mainnet.infura.io/v3/key"; EvNewKeyStore "./keystore";
      EvAccounts; EvUnlock Scenario.identityA "secret";
      EvPendingNonceAt "0xA"%string; EvSuggestGasPrice;
      EvSignTx Scenario.identityA
        {| nonce := 3; to := "0xRecipient"%string; value := 100000000000000000;
           gasLimit := 21000; gasPrice := 20; data := [] |} 1;
      EvSendTransaction
        ({| nonce := 3; to := "0xRecipient"%string; value := 100000000000000000;
            gasLimit := 21000; gasPrice := 20; data := [] |}, 1);
      EvPrintf "Transaction sent: %s\n" ["0xhash"%string]],
     Ret tt).
Proof.
  exact (transfer_eth_tenth_scenario Scenario.world Scenario.config Scenario.amd64
           "0xRecipient" (S754_finite false 7205759403792794 (-56))
           Scenario.identityA [] _
           tenth_parsed eq_refl eq_refl eq_refl eq_refl eq_refl eq_refl).
Defined.

(** Every signing request of [transferEth] carries the value
    [int64(amount * 1e18)]. *)
Lemma transferEth_signs_weiValue {address ABI SignedTx : Type}
    (w : World address ABI SignedTx) (cfg : Config) (pf : Platform)
    (fromIndex : Z) (toAddress : string) (amount : float64)
    (a : Account address) (tx : Transaction address) (chain : Z) :
  In (EvSignTx a tx chain) (fst (transferEth w cfg pf fromIndex toAddress amount)) ->
  value tx = weiValue pf amount /\ gasLimit tx = 21000.
Proof.
  rewrite transferEth_cases. cbv zeta.
  destruct (Dial w (ethNodeURL cfg));
    [cbn; intuition discriminate|].
  destruct (out_of_range fromIndex (Accounts w));
    [cbn; intuition discriminate|].
  destruct (nth_error (Accounts w) (Z.to_nat fromIndex)) as [account|];
    [|cbn; intuition discriminate].
  destruct (Unlock w account (keystorePassword cfg));
    [cbn; intuition discriminate|].
  destruct (PendingNonceAt w (Address account)) as [?|n];
    [cbn; intuition discriminate|].
  destruct (SuggestGasPrice w) as [?|g];
    [cbn; intuition discriminate|].
  assert (Hshape : forall tail : list (event address SignedTx),
            (forall ev, In ev tail -> sign_call ev = false) ->
            In (EvSignTx a tx chain)
               (([EvDial (ethNodeURL cfg); EvNewKeyStore (keystoreDir cfg); EvAccounts]
                   ++ [EvUnlock account (keystorePassword cfg)])
                  ++ [EvPendingNonceAt (Address account)] ++ [EvSuggestGasPrice]
                  ++ [EvSignTx account (ethTx w pf toAddress amount n g) (chainId cfg)]
                  ++ tail) ->
            value tx = weiValue pf amount /\ gasLimit tx = 21000).
  { intros tail Htail Hin. cbn in Hin.
    repeat (destruct Hin as [Hin|Hin]; [try discriminate|]).
    - injection Hin as _ <- _. split; reflexivity.
    - apply Htail in Hin. discriminate. }
  destruct (SignTx w account _ (chainId cfg)) as [?|stx].
  - intros H. apply (Hshape []); [intros ? []|].
    cbn [fst] in H. rewrite <- !app_assoc in H. rewrite <- !app_assoc. exact H.
  - destruct (SendTransaction w stx).
    + intros H. apply (Hshape [EvSendTransaction stx]).
      * intros ev [<-|[]]. reflexivity.
      * cbn [fst] in H. rewrite <- !app_assoc in H. rewrite <- !app_assoc. exact H.
    + intros H.
      apply (Hshape [EvSendTransaction stx;
                     EvPrintf "Transaction sent: %s\n" [TxHashHex w stx]]).
      * intros ev [<-|[<-|[]]]; reflexivity.
      * cbn [fst] in H. rewrite <- !app_assoc in H. rewrite <- !app_assoc. exact H.
Qed.

(** C10: the value [transferEth] computes, [int64(amount * 1e18)], lies
    in the [int64] range whatever the amount, it is the value of every
    transaction the command asks to sign, and when the float64 product
    is beyond that range it differs from every integer within one unit
    of the exact product [amount * 10^18], so from [round(amount *
    10^18)] however ties are broken. *)
Theorem wei_value_is_int64 {address ABI SignedTx : Type}
    (w : World address ABI SignedTx) (cfg : Config) (pf : Platform)
    (fromIndex : Z) (toAddress : string) (amount : float64) :
  - 2 ^ 63 <= weiValue pf amount <= 2 ^ 63 - 1 /\
  (forall a tx chain,
     In (EvSignTx a tx chain)
        (fst (transferEth w cfg pf fromIndex toAddress amount)) ->
     value tx = weiValue pf amount /\ - 2 ^ 63 <= value tx <= 2 ^ 63 - 1) /\
  (forall s m e r,
     amount = S754_finite s m e ->
     valid_binary prec emax amount = true ->
     exceeds_int64 (mul amount (of_int (10 ^ 18))) ->
     Z.abs (r * dyadic_den e - cond_Zopp s (dyadic_num (Zpos m) e * 10 ^ 18))
       < dyadic_den e ->
     weiValue pf amount <> r).
Proof.
  assert (Hrange : - 2 ^ 63 <= weiValue pf amount <= 2 ^ 63 - 1)
    by apply int64_of_float64_range.
  split; [exact Hrange|]. split.
  - intros a tx chain Hin.
    apply transferEth_signs_weiValue in Hin. destruct Hin as [Hv _].
    rewrite Hv. split; [reflexivity | exact Hrange].
  - intros s m e r -> Hvalid Hex Hnear.
    apply valid_mantissa in Hvalid.
    assert (Hp := exceeding_product s m e Hvalid Hex).
    assert (HD := dyadic_den_pos e).
    destruct s; cbn [cond_Zopp] in Hnear; nia.
Qed.

Lemma wei_value_is_int64_witness :
  weiValue Scenario.amd64 (S754_finite false 5629499534213120 (-49))
    <> 10000000000000000000.
Proof.
  destruct (wei_value_is_int64 Scenario.world Scenario.config Scenario.amd64 0 "0xR"
              (S754_finite false 5629499534213120 (-49))) as (_ & _ & H).
  apply (H false 5629499534213120%positive (-49) 10000000000000000000).
  - reflexivity.
  - reflexivity.
  - vm_compute. right. reflexivity.
  - vm_compute. reflexivity.
Defined.

End Transfers.

(** * check-balance and the token client *)

Section Balances.
Import Rounding Float64 Main.
Local Open Scope run_scope.

Lemma round_positive (p a b : Z) :
  1 <= p -> 0 < a -> 0 < b -> exists m e, BigFloat.round p a b = BigFloat.finite m e.
Proof.
  intros Hp Ha Hb. unfold BigFloat.round.
  destruct (Z.eqb_spec a 0); [lia|].
  destruct (round_ratio p None a b) as [m e] eqn:Hr.
  apply round_ratio_normal in Hr; try assumption.
  assert (0 < 2 ^ (p - 1)) by (apply Z.pow_pos_nonneg; lia).
  destruct m as [|mp|mp]; try lia. exists mp, e. reflexivity.
Qed.

Lemma divisor_10 :
  divisor 10 = Done {| BigFloat.prec := 53; BigFloat.neg := false;
                       BigFloat.val := BigFloat.zero |}.
Proof. vm_compute. reflexivity. Qed.

(** C5: with [decimals = 10] the divisor [10 XOR 10] is zero, so
    [formatBigIntToDecimal] returns ["+Inf"], a text with no decimal
    point, for every positive amount and panics for the amount 0; at 18
    decimals [10^18] is written with its 18 fraction digits. *)
Theorem ten_decimals_has_no_digits (amount : Z) :
  0 < amount ->
  formatBigIntToDecimal amount 10 = Done "+Inf"%string /\
  Text.after_point (list_ascii_of_string "+Inf") = None /\
  formatBigIntToDecimal 0 10
    = Panic "division of zero by zero or infinity by infinity" /\
  formatBigIntToDecimal (10 ^ 18) 18 = Done "1.000000000000000000"%string.
Proof.
  intros Ha. split; [|split; [|split]];
    [|vm_compute; reflexivity|vm_compute; reflexivity|vm_compute; reflexivity].
  unfold formatBigIntToDecimal. rewrite divisor_10. cbn [run_bind].
  unfold BigFloat.SetInt, BigFloat.Quo.
  cbn [BigFloat.prec BigFloat.new BigFloat.neg BigFloat.val Z.eqb].
  destruct (round_positive (Z.max (BigFloat.BitLen amount) 64) (Z.abs amount) 1)
    as (m & e & Hr); try lia.
  rewrite Hr. cbn [run_bind].
  destruct (Z.ltb_spec amount 0); [lia|]. reflexivity.
Qed.

Lemma ten_decimals_has_no_digits_witness :
  formatBigIntToDecimal 1 10 = Done "+Inf"%string.
Proof.
  exact (proj1 (ten_decimals_has_no_digits 1 eq_refl)).
Defined.

Lemma format_two_coins :
  formatBigIntToDecimal (2 * 10 ^ 18) 18 = Done "2.000000000000000000"%string.
Proof. vm_compute. reflexivity. Qed.

Lemma format_five_tokens :
  formatBigIntToDecimal 5000000 6 = Done "416666.666667"%string.
Proof. vm_compute. reflexivity. Qed.

(** [BalanceOf], one case per way it can end. *)
Lemma BalanceOf_cases {address ABI SignedTx : Type}
    (w : World address ABI SignedTx) (t : Token address ABI) (addr : string) :
  BalanceOf w t addr =
  match Pack w (token_ABI t) "balanceOf" [ArgAddress (HexToAddress w addr)] with
  | inl e => ([], Fail (Wrap "failed to pack data for balanceOf: %w" e))
  | inr calldata =>
      let msg := {| To := token_address t; Data := calldata |} in
      match CallContract w msg with
      | inl e => ([EvCallContract msg], Fail (Wrap "failed to call balanceOf: %w" e))
      | inr response => ([EvCallContract msg], Ret (BigInt.SetBytes response))
      end
  end.
Proof.
  unfold BalanceOf.
  destruct (Pack w (token_ABI t) "balanceOf" [ArgAddress (HexToAddress w addr)]);
    [reflexivity|]. step.
  destruct (CallContract w _); reflexivity.
Qed.

(** C2: check-balance for index 0 and 6 decimals, with a native balance
    of [2 * 10^18] and a token call that returns 5000000, prints
    ["2.000000000000000000"] for the native balance and
    ["416666.666667"] (5000000 / 12) for the token balance, not
    ["5.000000"]. *)
Theorem check_balance_scenario_prints {address ABI SignedTx : Type}
    (w : World address ABI SignedTx) (cfg : Config) (tokenAddress : string)
    (account : Account address) (rest : list (Account address))
    (abiText : string) (abi : ABI) (calldata response : list Z) :
  Accounts w = account :: rest ->
  Dial w (ethNodeURL cfg) = None ->
  BalanceAt w (Address account) = inr (2 * 10 ^ 18) ->
  Open w "./token/abi.json" = None ->
  ReadAll w "./token/abi.json" = inr abiText ->
  ABI_JSON w abiText = inr abi ->
  Pack w abi "balanceOf"
    [ArgAddress (HexToAddress w (AddressHex w (Address account)))] = inr calldata ->
  let msg := {| To := HexToAddress w tokenAddress; Data := calldata |} in
  CallContract w msg = inr response ->
  BigInt.SetBytes response = 5000000 ->
  checkBalance w cfg 0 tokenAddress 6 =
  ([EvNewKeyStore (keystoreDir cfg); EvAccounts; EvDial (ethNodeURL cfg);
    EvBalanceAt (Address account);
    EvPrintf "ETH Balance of %s: %s\n"
      [AddressHex w (Address account); "2.000000000000000000"%string];
    EvOpen "./token/abi.json"; EvReadAll "./token/abi.json";
    EvCallContract msg;
    EvPrintf "Token Balance of %s: %s\n"
      [AddressHex w (Address account); "416666.666667"%string]],
   Ret tt).
Proof.
  intros Ha Hd Hb Ho Hr Hj Hp msg Hc Hv.
  unfold checkBalance. step. rewrite Ha.
  cbn [out_of_range List.length Z.of_nat Z.ltb Z.leb Z.compare orb].
  rewrite Hd. step. unfold account_at. cbn [Z.to_nat nth_error]. step.
  rewrite Hb. step. rewrite format_two_coins. step.
  unfold getTokenBalance, ERCToken, loadTokenABI. step.
  rewrite Ho. step. rewrite Hr. step. rewrite Hj. step.
  rewrite BalanceOf_cases. cbn [token_ABI token_address]. rewrite Hp. cbv zeta.
  fold msg. rewrite Hc. step. rewrite Hv, format_five_tokens. step. reflexivity.
Qed.

Lemma check_balance_scenario_prints_witness :
  exists calls,
    checkBalance Scenario.world Scenario.config 0 "0xT" 6 = (calls, Ret tt) /\
    filter (fun ev => match ev with EvPrintf _ _ => true | _ => false end) calls
    = [EvPrintf "ETH Balance of %s: %s\n" ["0xA"; "2.000000000000000000"]%string;
       EvPrintf "Token Balance of %s: %s\n" ["0xA"; "416666.666667"]%string].
Proof.
  eexists. split.
  - apply (check_balance_scenario_prints Scenario.world Scenario.config "0xT"
             Scenario.identityA [] "[]" tt
             ([112; 160; 130; 49] ++ Scenario.word32 10) (Scenario.word32 5000000));
      try reflexivity.
  - reflexivity.
Defined.

(** C8, as the code has it: [BalanceOf] fails when the call-data cannot
    be packed and when the node call fails, then with the node's error
    wrapped under "failed to call balanceOf"; it has no other failure:
    every response the node returns, of any length, is read as a
    big-endian unsigned integer and returned as the balance, the empty
    response as 0. *)
Theorem balanceOf_accepts_every_response {address ABI SignedTx : Type}
    (w : World address ABI SignedTx) (t : Token address ABI) (addr : string) :
  let packed := Pack w (token_ABI t) "balanceOf" [ArgAddress (HexToAddress w addr)] in
  (forall e, packed = inl e ->
     BalanceOf w t addr = ([], Fail (Wrap "failed to pack data for balanceOf: %w" e))) /\
  (forall calldata, packed = inr calldata ->
     let msg := {| To := token_address t; Data := calldata |} in
     (forall e, CallContract w msg = inl e ->
        BalanceOf w t addr
        = ([EvCallContract msg], Fail (Wrap "failed to call balanceOf: %w" e))) /\
     (forall response, CallContract w msg = inr response ->
        BalanceOf w t addr
        = ([EvCallContract msg], Ret (BigInt.SetBytes response)))) /\
  BigInt.SetBytes [] = 0.
Proof.
  intro packed. rewrite BalanceOf_cases. fold packed.
  split; [|split].
  - intros e ->. reflexivity.
  - intros calldata ->. cbv zeta. split.
    + intros e ->. reflexivity.
    + intros response ->. reflexivity.
  - reflexivity.
Qed.

Lemma balanceOf_accepts_every_response_witness :
  BalanceOf Scenario.world
    {| token_address := "0xT"%string; token_decimal := 6; token_ABI := tt |} "0xA"
  = ([EvCallContract {| To := "0xT"%string;
                        Data := [112; 160; 130; 49] ++ Scenario.word32 10 |}],
     Ret 5000000).
Proof.
  destruct (balanceOf_accepts_every_response Scenario.world
              {| token_address := "0xT"%string; token_decimal := 6; token_ABI := tt |}
              "0xA") as (_ & H & _).
  destruct (H ([112; 160; 130; 49] ++ Scenario.word32 10) eq_refl) as (_ & Hr).
  apply (Hr (Scenario.word32 5000000)). reflexivity.
Defined.

(** C8 as stated fails: a response of no bytes is not the encoding of an
    integer, and [BalanceOf] returns the balance 0 for it. *)
Lemma balanceOf_empty_response_is_zero :
  ~ (forall (w : World string unit (Transaction string * Z))
            (t : Token string unit) (addr : string) (msg : CallMsg string)
            (response : list Z),
       In (EvCallContract msg) (fst (BalanceOf w t addr)) ->
       CallContract w msg = inr response ->
       decodes_as_integer response = false ->
       exists e, snd (BalanceOf w t addr) = Fail e).
Proof.
  intros H.
  destruct (H Scenario.no_contract
              {| token_address := "0xT"%string; token_decimal := 6; token_ABI := tt |}
              "0xA"%string
              {| To := "0xT"%string;
                 Data := [112; 160; 130; 49] ++ Scenario.word32 10 |}
              []) as [e He].
  - left. reflexivity.
  - reflexivity.
  - reflexivity.
  - discriminate He.
Qed.

End Balances.

(** * transfer-token: the amount in base units *)

Section TokenAmount.
Import Rounding Float64 Text Main.

Lemma SetString_fixed (s : bool) (n : Z) :
  0 <= n ->
  BigInt.SetString
    (string_of_list_ascii ((if s then ["-"%char] else []) ++ fixed n 6))
  = (cond_Zopp s (n / 10 ^ 6), false).
Proof.
  intros Hn. unfold BigInt.SetString.
  rewrite list_ascii_of_string_of_list_ascii.
  unfold fixed. change (0 <? 6) with true. cbv iota.
  set (tail := low_digits (Z.to_nat 6) (n mod 10 ^ 6) []).
  assert (Hq : 0 <= n / 10 ^ 6) by (apply Z.div_pos; lia).
  destruct (scan_digits_point (n / 10 ^ 6) tail Hq) as (k & d & rest & Hhead & Hd & Hscan).
  destruct s; cbn [app].
  - change (Ascii.eqb "-"%char "-"%char) with true. cbv iota.
    rewrite Hscan. reflexivity.
  - rewrite Hhead.
    destruct (digit_char_facts d Hd) as (_ & _ & Hm & Hp).
    rewrite Hm, Hp. rewrite <- Hhead, Hscan. reflexivity.
Qed.

(** What the ignored [SetString] does with the [%f] text of any
    float64. *)
Lemma SetString_Sprintf_f (p : float64) :
  BigInt.SetString (Strconv.Sprintf_f p) = (whole_part p, false).
Proof.
  destruct p as [s|s| |s m e].
  - unfold Strconv.Sprintf_f, Strconv.FormatFloat_f.
    rewrite (SetString_fixed s 0 ltac:(lia)). destruct s; reflexivity.
  - destruct s; vm_compute; reflexivity.
  - vm_compute. reflexivity.
  - unfold Strconv.Sprintf_f, Strconv.FormatFloat_f.
    rewrite SetString_fixed; [reflexivity|].
    apply div_rne_nonneg; [|apply dyadic_den_pos].
    assert (H := dyadic_num_pos (Zpos m) e ltac:(lia)). lia.
Qed.

(** C6, as the code has it: [SetString] rejects the [%f] text of every
    product (it reports failure, which is ignored), and [amountInWei]
    is left holding the integer read before the failure, the whole part
    of the product rounded at six decimals; that integer is the amount
    packed into the transfer call-data. *)
Theorem ignored_SetString_keeps_whole_part {address ABI SignedTx : Type}
    (w : World address ABI SignedTx) (abi : ABI) (toAddress : string)
    (amount : float64) (decimal : Z) :
  let product := mul amount (Math.Pow10 decimal) in
  BigInt.SetString (Strconv.Sprintf_f product) = (whole_part product, false) /\
  amountInWei amount decimal = whole_part product /\
  transferCallData w abi toAddress amount decimal
  = Pack w abi "transfer"
      [ArgAddress (HexToAddress w toAddress); ArgBigInt (whole_part product)].
Proof.
  intro product.
  assert (H := SetString_Sprintf_f product).
  split; [exact H|].
  assert (Ha : amountInWei amount decimal = whole_part product).
  { unfold amountInWei. fold product. rewrite H. reflexivity. }
  split; [exact Ha|].
  unfold transferCallData. rewrite Ha. reflexivity.
Qed.

(** C6 as stated fails: for the amount 1 and 6 decimals the amount
    packed is 1000000, not 0. *)
Lemma one_token_is_not_zero :
  ~ (forall (amount : float64) (decimal : Z), amountInWei amount decimal = 0).
Proof.
  intros H. specialize (H (of_int 1) 6). vm_compute in H. discriminate H.
Qed.

End TokenAmount.

(** * Eighteen decimals: the text is exact *)

Section EighteenDecimals.
Import Rounding Float64 Text Main.
Local Open Scope run_scope.

Lemma div_rne_near (a b n : Z) :
  0 <= a -> 0 < b -> 2 * Z.abs (a - n * b) < b -> div_rne a b = n.
Proof.
  intros Ha Hb H. assert (Hq := div_rne_bounds a b Ha Hb). nia.
Qed.

(** An integer below [2 ^ p] is held exactly at [p] bits. *)
Lemma round_int_exact (p a : Z) :
  1 <= p -> 0 < a < 2 ^ p ->
  exists m e, BigFloat.round p a 1 = BigFloat.finite m e /\ is_dyadic a 1 (Zpos m) e.
Proof.
  intros Hp Ha.
  destruct (Z.log2_spec a ltac:(lia)) as [Hl Hu].
  assert (HL := Z.log2_nonneg a).
  assert (HLp : Z.log2 a < p) by (apply Z.log2_lt_pow2; lia).
  set (L := Z.log2 a) in *.
  assert (Hs : 2 ^ Z.succ L = 2 * 2 ^ L) by (apply Z.pow_succ_r; lia).
  assert (Hsplit : 2 ^ (p - 1) = 2 ^ L * 2 ^ (p - 1 - L)).
  { rewrite <- Z.pow_add_r by lia. f_equal. lia. }
  assert (Hpp : 2 ^ p = 2 * 2 ^ (p - 1)).
  { replace p with (Z.succ (p - 1)) at 1 by lia. apply Z.pow_succ_r. lia. }
  assert (HK : 0 < 2 ^ (p - 1 - L)) by (apply Z.pow_pos_nonneg; lia).
  assert (HPL : 0 < 2 ^ L) by (apply Z.pow_pos_nonneg; lia).
  assert (Hex : round_ratio p None a 1 = (a * 2 ^ (p - 1 - L), L - (p - 1))).
  { apply round_ratio_exact; try lia.
    - nia.
    - unfold is_dyadic, dyadic_den, dyadic_num.
      rewrite (Z.max_r 0 (- (L - (p - 1)))), (Z.max_l 0 (L - (p - 1))) by lia.
      change (2 ^ 0) with 1. replace (- (L - (p - 1))) with (p - 1 - L) by lia. ring. }
  unfold BigFloat.round. destruct (Z.eqb_spec a 0); [lia|]. rewrite Hex.
  destruct (a * 2 ^ (p - 1 - L)) as [|m|m] eqn:Hm; try nia.
  exists m, (L - (p - 1)). split; [reflexivity|].
  unfold is_dyadic, dyadic_den, dyadic_num.
  rewrite (Z.max_r 0 (- (L - (p - 1)))), (Z.max_l 0 (L - (p - 1))) by lia.
  change (2 ^ 0) with 1. replace (- (L - (p - 1))) with (p - 1 - L) by lia. lia.
Qed.

Lemma BigFloat_round_ratio (p a b a' b' : Z) :
  0 < a -> 0 < b -> 0 < a' -> 0 < b' -> a * b' = a' * b ->
  BigFloat.round p a b = BigFloat.round p a' b'.
Proof.
  intros Ha Hb Ha' Hb' H. unfold BigFloat.round.
  destruct (Z.eqb_spec a 0); [lia|]. destruct (Z.eqb_spec a' 0); [lia|].
  rewrite (round_ratio_ratio p None a b a' b') by assumption. reflexivity.
Qed.

(** Dividing a positive amount below [2 ^ 64] by [1e18] rounds the exact
    quotient once, to 64 bits. *)
Lemma Quo_e18 (n : Z) :
  0 < n < 2 ^ 64 ->
  BigFloat.Quo BigFloat.new (BigFloat.SetInt BigFloat.new n) e18_53
  = Done {| BigFloat.prec := 64; BigFloat.neg := false;
            BigFloat.val := BigFloat.round 64 n (10 ^ 18) |}.
Proof.
  intros Hn.
  assert (Hb : BigFloat.BitLen n <= 64).
  { unfold BigFloat.BitLen. destruct (Z.eqb_spec n 0); [lia|].
    rewrite Z.abs_eq by lia.
    assert (Z.log2 n < 64) by (apply Z.log2_lt_pow2; lia). lia. }
  unfold BigFloat.SetInt, BigFloat.Quo, e18_53.
  cbn [BigFloat.prec BigFloat.new BigFloat.neg BigFloat.val Z.eqb].
  rewrite (Z.max_r _ 64) by lia. rewrite Z.abs_eq by lia.
  destruct (round_int_exact 64 n ltac:(lia) Hn) as (m & e & Hr & Hd).
  rewrite Hr. destruct (Z.ltb_spec n 0); [lia|]. cbn [xorb].
  change (Z.max 64 53) with 64. f_equal. f_equal.
  assert (HDe := dyadic_den_pos e).
  assert (HNe := dyadic_num_pos (Zpos m) e ltac:(lia)).
  apply BigFloat_round_ratio; try lia.
  - change (dyadic_den 7) with 1. lia.
  - change (dyadic_num 7812500000000000 7) with (10 ^ 18). lia.
  - unfold is_dyadic in Hd.
    change (dyadic_den 7) with 1. change (dyadic_num 7812500000000000 7) with (10 ^ 18).
    lia.
Qed.

(** Below 16 coins the 64-bit quotient is within half a base unit of
    the exact one, so the 18 digits written are those of the amount. *)
Lemma text_of_quotient (n : Z) (m : positive) (e : Z) :
  0 < n < 16 * 10 ^ 18 ->
  BigFloat.round 64 n (10 ^ 18) = BigFloat.finite m e ->
  div_rne (dyadic_num (Zpos m) e * 10 ^ 18) (dyadic_den e) = n.
Proof.
  intros Hn. unfold BigFloat.round, round_ratio, ulp_exp.
  destruct (Z.eqb_spec n 0); [lia|].
  assert (HL : ratio_log2 n (10 ^ 18) < 4).
  { apply ratio_log2_lt; try lia. unfold ge_pow2. cbn. lia. }
  set (e0 := ratio_log2 n (10 ^ 18) + 1 - 64).
  assert (He0 : e0 <= -60) by (unfold e0; lia).
  unfold scaled_rne.
  rewrite (Z.max_r 0 (- e0)), (Z.max_l 0 e0) by lia. change (2 ^ 0) with 1.
  assert (HD : 2 ^ 60 <= 2 ^ (- e0)) by (apply Z.pow_le_mono_r; lia).
  assert (HDs : 2 ^ (- e0) = 2 * 2 ^ (- (e0 + 1))).
  { replace (- e0) with (Z.succ (- (e0 + 1))) by lia. apply Z.pow_succ_r. lia. }
  assert (Hq := div_rne_bounds (n * 2 ^ (- e0)) (10 ^ 18 * 1) ltac:(nia) ltac:(lia)).
  set (m0 := div_rne (n * 2 ^ (- e0)) (10 ^ 18 * 1)) in *.
  set (D := 2 ^ (- e0)) in *. set (D1 := 2 ^ (- (e0 + 1))) in *.
  change (2 ^ 60) with 1152921504606846976 in HD.
  change (10 ^ 18) with 1000000000000000000 in *.
  destruct (Z.eqb_spec m0 (2 ^ 64)) as [Heq|Hne].
  - intros H. injection H as <- <-.
    unfold dyadic_num, dyadic_den.
    rewrite (Z.max_l 0 (e0 + 1)), (Z.max_r 0 (- (e0 + 1))) by lia.
    change (2 ^ 0) with 1. fold D1.
    change (Z.pos 9223372036854775808) with (2 ^ 63).
    change (2 ^ 64) with (2 * 2 ^ 63) in Heq.
    apply div_rne_near; try nia.
  - destruct m0 as [|m0p|m0p] eqn:Hm0; try discriminate.
    intros H. injection H as <- <-.
    unfold dyadic_num, dyadic_den.
    rewrite (Z.max_l 0 e0), (Z.max_r 0 (- e0)) by lia.
    change (2 ^ 0) with 1. fold D.
    apply div_rne_near; try nia.
Qed.

(** At 18 decimals every amount below 16 coins is written exactly. *)
Lemma format_exact_18 (n : Z) :
  0 <= n < 16 * 10 ^ 18 ->
  formatBigIntToDecimal n 18 = Done (string_of_list_ascii (fixed n 18)).
Proof.
  intros Hn. destruct (Z.eq_dec n 0) as [->|Hz]; [vm_compute; reflexivity|].
  unfold formatBigIntToDecimal. rewrite divisor_18. cbn [run_bind].
  rewrite Quo_e18 by (change (2 ^ 64) with 18446744073709551616; lia).
  cbn [run_bind]. unfold BigFloat.Text. cbn [BigFloat.neg BigFloat.val].
  destruct (round_positive 64 n (10 ^ 18)) as (m & e & Hr); try lia.
  rewrite Hr. change (18 <? 0) with false. cbv iota.
  rewrite (text_of_quotient n m e ltac:(lia) Hr). reflexivity.
Qed.

End EighteenDecimals.

Section ParseBack.
Import Rounding Float64 Text Main.

Lemma low_digits_S (k : nat) (n : Z) (acc : list ascii) :
  low_digits (S k) n acc = low_digits k (n / 10) (digit_char (n mod 10) :: acc).
Proof. reflexivity. Qed.

(** Scanning zero-padded digits reads the number back. *)
Lemma scan_low_digits (k : nat) :
  forall (n : Z) (acc : list ascii) (a : Z) (c : nat),
    0 <= n < 10 ^ Z.of_nat k ->
    scan_digits (low_digits k n acc) a c
    = scan_digits acc (a * 10 ^ Z.of_nat k + n) (c + k).
Proof.
  induction k as [|k IH]; intros n acc a c Hn.
  - change (10 ^ Z.of_nat 0) with 1 in *. cbn [low_digits].
    f_equal; lia.
  - rewrite low_digits_S.
    replace (Z.of_nat (S k)) with (Z.succ (Z.of_nat k)) in * by lia.
    rewrite Z.pow_succ_r in * by lia.
    assert (Hm := Z.mod_pos_bound n 10 ltac:(lia)).
    assert (Hdm := Z.div_mod n 10 ltac:(lia)).
    rewrite IH.
    + destruct (digit_char_facts (n mod 10) ltac:(lia)) as (Hd & Hv & _).
      cbn [scan_digits]. rewrite Hd, Hv. f_equal; lia.
    + split; [apply Z.div_pos; lia|]. apply Z.div_lt_upper_bound; lia.
Qed.

(** The amount flag parsed from the 18-decimal text of [n] is the
    binary64 nearest to [n / 10^18]. *)
Lemma ParseFloat_fixed_18 (n : Z) :
  0 <= n ->
  Strconv.ParseFloat (string_of_list_ascii (fixed n 18))
  = Some (of_ratio false n (10 ^ 18)).
Proof.
  intros Hn. unfold Strconv.ParseFloat.
  rewrite list_ascii_of_string_of_list_ascii.
  unfold fixed. change (0 <? 18) with true. cbv iota.
  assert (Hf := Z.mod_pos_bound n (10 ^ 18) ltac:(lia)).
  assert (Hq : 0 <= n / 10 ^ 18) by (apply Z.div_pos; lia).
  set (low := low_digits (Z.to_nat 18) (n mod 10 ^ 18) []).
  destruct (scan_digits_point (n / 10 ^ 18) low Hq)
    as (k & d & rest & Hhead & Hd & Hscan).
  rewrite Hhead.
  destruct (digit_char_facts d Hd) as (_ & _ & Hm & Hp).
  rewrite Hm, Hp. rewrite <- Hhead, Hscan.
  change (Ascii.eqb "."%char "."%char) with true. cbv iota.
  unfold low. rewrite scan_low_digits by (change (Z.of_nat (Z.to_nat 18)) with 18; lia).
  cbn [scan_digits].
  change (Z.of_nat (Z.to_nat 18)) with 18. change (0 + Z.to_nat 18)%nat with 18%nat.
  replace (Nat.eqb (S k + 18) 0) with false by (symmetry; apply Nat.eqb_neq; lia).
  change (Z.of_nat 18) with 18.
  assert (Hdm := Z.div_mod n (10 ^ 18) ltac:(lia)).
  replace (n / 10 ^ 18 * 10 ^ 18 + n mod 10 ^ 18) with n by lia.
  reflexivity.
Qed.

(** Through [transferEth] the round trip at 18 decimals is the float64
    computation on the nearest binary64 to [n / 10^18]. *)
Lemma roundTrip_eth_18 (pf : Platform) (n : Z) :
  0 <= n < 16 * 10 ^ 18 ->
  roundTrip_eth pf n = Some (weiValue pf (of_ratio false n (10 ^ 18))).
Proof.
  intros Hn. unfold roundTrip_eth, toBaseUnits_eth.
  rewrite (format_exact_18 n Hn), (ParseFloat_fixed_18 n) by lia. reflexivity.
Qed.

End ParseBack.

(** * Accuracy of the round trip through transfer-eth *)

Section Accuracy.
Import Rounding Float64 Main.

(** Two roundings in a row: the second result [N / D] against the
    value [n] the first operand [A / B] approximates. *)
Lemma compose_two_roundings (n A B N D : Z) :
  0 < n -> 0 < B -> 0 < D -> 0 <= A ->
  9007199254740992 * Z.abs (A - n * B) <= n * B ->
  9007199254740992 * Z.abs (N * B - A * D) <= A * D ->
  9007199254740992 * 9007199254740992 * Z.abs (N - n * D)
    <= (2 * 9007199254740992 + 1) * (n * D).
Proof.
  intros Hn HB HD HA H1 H2.
  apply (Z.mul_le_mono_pos_r _ _ B HB).
  rewrite <- Z.mul_assoc. rewrite <- (Z.abs_eq B) at 1 by lia.
  rewrite <- Z.abs_mul.
  assert (K2 : 9007199254740992 * Z.abs ((A - n * B) * D) <= n * B * D).
  { rewrite Z.abs_mul, (Z.abs_eq D) by lia.
    rewrite Z.mul_assoc. apply Z.mul_le_mono_nonneg_r; lia. }
  assert (K3 : 9007199254740992 * (A * D) <= (9007199254740992 + 1) * (n * B * D)).
  { assert (K : 9007199254740992 * A <= (9007199254740992 + 1) * (n * B)) by lia.
    apply (Z.mul_le_mono_nonneg_r _ _ D) in K; lia. }
  replace ((N - n * D) * B) with ((N * B - A * D) + (A - n * B) * D) by ring.
  assert (T := Z.abs_triangle (N * B - A * D) ((A - n * B) * D)).
  nia.
Qed.

(** The integer part of a non-negative finite binary64. *)
Lemma trunc_floor (m : positive) (e : Z) :
  exists v, trunc (S754_finite false m e) = Some v /\ 0 <= v /\
            v * dyadic_den e <= dyadic_num (Zpos m) e < (v + 1) * dyadic_den e.
Proof.
  cbn [trunc cond_Zopp]. unfold dyadic_num, dyadic_den.
  destruct (Z.leb_spec 0 e).
  - exists (Zpos m * 2 ^ e). split; [reflexivity|].
    rewrite (Z.max_r 0 e), (Z.max_l 0 (- e)) by lia. change (2 ^ 0) with 1.
    assert (0 < 2 ^ e) by (apply Z.pow_pos_nonneg; lia). nia.
  - exists (Zpos m / 2 ^ (- e)). split; [reflexivity|].
    rewrite (Z.max_l 0 e), (Z.max_r 0 (- e)) by lia. change (2 ^ 0) with 1.
    assert (HP : 0 < 2 ^ (- e)) by (apply Z.pow_pos_nonneg; lia).
    assert (Hd := Z.div_mod (Zpos m) (2 ^ (- e)) ltac:(lia)).
    assert (Hm := Z.mod_pos_bound (Zpos m) (2 ^ (- e)) HP).
    split; [apply Z.div_pos; lia|]. nia.
Qed.

(** Up to 9 coins, [int64(fl(n / 10^18) * 1e18)] is within
    [n / 2^51 + 1] of [n]. *)
Lemma weiValue_accuracy (pf : Platform) (n : Z) :
  1 <= n <= 9 * 10 ^ 18 ->
  2 ^ 51 * Z.abs (weiValue pf (of_ratio false n (10 ^ 18)) - n) <= n + 2 ^ 51.
Proof.
  intros Hn.
  assert (Hbig : 10 ^ 19 <= 2 ^ 1022) by (apply Z.leb_le; vm_compute; reflexivity).
  assert (Hbig' : 2 ^ 1023 = 2 * 2 ^ 1022) by (apply Z.eqb_eq; vm_compute; reflexivity).
  change (10 ^ 19) with 10000000000000000000 in Hbig.
  change (10 ^ 18) with 1000000000000000000 in Hn.
  destruct (of_ratio_rel_error n (10 ^ 18)) as (mx & ex & Hx & E1); try lia.
  { unfold ge_pow2. change (Z.max 0 (-1022)) with 0.
    change (Z.max 0 (- -1022)) with 1022. change (2 ^ 0) with 1.
    change (10 ^ 18) with 1000000000000000000. nia. }
  { unfold ge_pow2. change (Z.max 0 1023) with 1023.
    change (Z.max 0 (- (1023))) with 0. change (2 ^ 0) with 1.
    change (10 ^ 18) with 1000000000000000000. nia. }
  rewrite Hx. unfold weiValue. rewrite mul_1e18.
  assert (Hpe := product_exact (Zpos mx) ex).
  assert (HDx := dyadic_den_pos ex).
  assert (HB := dyadic_den_pos (ex + 7)).
  assert (HA := dyadic_num_pos (Zpos mx * 7812500000000000) (ex + 7) ltac:(lia)).
  set (A := dyadic_num (Zpos mx * 7812500000000000) (ex + 7)) in *.
  set (B := dyadic_den (ex + 7)) in *.
  set (Nx := dyadic_num (Zpos mx) ex) in *.
  set (Dx := dyadic_den ex) in *.
  change (2 ^ 53) with 9007199254740992 in E1.
  change (10 ^ 18) with 1000000000000000000 in *.
  (* the exact product against n *)
  assert (E1' : 9007199254740992 * Z.abs (A - n * B) <= n * B).
  { apply (Z.mul_le_mono_pos_r _ _ Dx HDx).
    rewrite <- Z.mul_assoc. rewrite <- (Z.abs_eq Dx) at 1 by lia.
    rewrite <- Z.abs_mul.
    replace ((A - n * B) * Dx) with ((Nx * 1000000000000000000 - n * Dx) * B) by lia.
    rewrite Z.abs_mul, (Z.abs_eq B) by lia.
    assert (K := Z.mul_le_mono_nonneg_r _ _ B ltac:(lia) E1). lia. }
  destruct (of_ratio_rel_error A B) as (my & ey & Hy & E2); try lia.
  { unfold ge_pow2. change (Z.max 0 (-1022)) with 0.
    change (Z.max 0 (- -1022)) with 1022. change (2 ^ 0) with 1. nia. }
  { unfold ge_pow2. change (Z.max 0 1023) with 1023.
    change (Z.max 0 (- (1023))) with 0. change (2 ^ 0) with 1. nia. }
  rewrite Hy.
  change (2 ^ 53) with 9007199254740992 in E2.
  assert (HDy := dyadic_den_pos ey).
  assert (C := compose_two_roundings n A B (dyadic_num (Zpos my) ey) (dyadic_den ey)
                 ltac:(lia) HB HDy ltac:(lia) E1' E2).
  destruct (trunc_floor my ey) as (v & Hv & Hv0 & Hfl).
  set (Ny := dyadic_num (Zpos my) ey) in *. set (Dy := dyadic_den ey) in *.
  assert (Hclose : 9007199254740992 * 9007199254740992 * Z.abs (v - n)
                   <= (2 * 9007199254740992 + 1) * n
                      + 9007199254740992 * 9007199254740992).
  { apply (Z.mul_le_mono_pos_r _ _ Dy HDy).
    rewrite <- Z.mul_assoc. rewrite <- (Z.abs_eq Dy) at 1 by lia.
    rewrite <- Z.abs_mul.
    assert (T := Z.abs_triangle (v * Dy - Ny) (Ny - n * Dy)).
    replace (v * Dy - Ny + (Ny - n * Dy)) with ((v - n) * Dy) in T by ring.
    assert (Z.abs (v * Dy - Ny) <= Dy) by lia.
    nia. }
  unfold int64_of_float64. rewrite Hv.
  assert (Hin : - 2 ^ 63 <= v <= 2 ^ 63 - 1)
    by (change (2 ^ 63) with 9223372036854775808; lia).
  destruct (Z.leb_spec (- 2 ^ 63) v); [|lia].
  destruct (Z.leb_spec v (2 ^ 63 - 1)); [|lia].
  cbn [andb]. change (2 ^ 51) with 2251799813685248. lia.
Qed.

End Accuracy.

(** * The round trip between base units and text *)

Section RoundTrip.
Import Float64 Text Main.

(** C1 as stated fails: 1.1 coins, written ["1.100000000000000000"], come
    back as 1100000000000000128 base units through either transfer, not
    as the 1100000000000000000 written; and 12 base units at 6 decimals,
    written ["1.000000"], come back as 1000000. *)
Lemma round_trip_loses_base_units :
  let n := 1100000000000000000 in
  0 <= n /\ 0 <= 18 <= 36 /\
  formatBigIntToDecimal n 18 = Done "1.100000000000000000"%string /\
  roundTrip_eth Scenario.amd64 n = Some 1100000000000000128 /\
  roundTrip_token n 18 = Some 1100000000000000128 /\
  roundTrip_eth Scenario.amd64 n <> Some n /\
  roundTrip_token n 18 <> Some n /\
  formatBigIntToDecimal 12 6 = Done "1.000000"%string /\
  roundTrip_token 12 6 = Some 1000000.
Proof.
  cbv zeta.
  split; [lia|].
  split; [lia|].
  split; [vm_compute; reflexivity|].
  split; [vm_compute; reflexivity|].
  split; [vm_compute; reflexivity|].
  split; [intros H; vm_compute in H; discriminate H|].
  split; [intros H; vm_compute in H; discriminate H|].
  split; vm_compute; reflexivity.
Qed.

Lemma whole_coins (pf : Platform) (k : Z) :
  0 <= k <= 9 ->
  roundTrip_eth pf (k * 10 ^ 18) = Some (k * 10 ^ 18) /\
  roundTrip_token (k * 10 ^ 18) 18 = Some (k * 10 ^ 18).
Proof.
  intros Hk.
  assert (Hc : k = 0 \/ k = 1 \/ k = 2 \/ k = 3 \/ k = 4 \/ k = 5 \/ k = 6 \/
               k = 7 \/ k = 8 \/ k = 9) by lia.
  repeat (destruct Hc as [Hc|Hc];
          [subst k; split; vm_compute; reflexivity|]).
  subst k; split; vm_compute; reflexivity.
Qed.

(** C1, as the code has it: at 18 decimals and up to nine coins,
    [formatBigIntToDecimal] writes the amount exactly, with 18 fraction
    digits; [transferEth]'s conversion turns that text back into a value
    within [n / 2^51 + 1] base units of [n]; and a whole number of coins
    comes back unchanged through [transferEth] and through
    [transferToken]. *)
Theorem round_trip_at_18_decimals (pf : Platform) (n : Z) :
  0 <= n <= 9 * 10 ^ 18 ->
  formatBigIntToDecimal n 18 = Done (string_of_list_ascii (fixed n 18)) /\
  (exists v, roundTrip_eth pf n = Some v /\ 2 ^ 51 * Z.abs (v - n) <= n + 2 ^ 51) /\
  (forall k, n = k * 10 ^ 18 ->
     roundTrip_eth pf n = Some n /\ roundTrip_token n 18 = Some n).
Proof.
  intros Hn.
  assert (Hn16 : 0 <= n < 16 * 10 ^ 18)
    by (change (10 ^ 18) with 1000000000000000000 in *; lia).
  split; [apply format_exact_18; exact Hn16|]. split.
  - rewrite (roundTrip_eth_18 pf n Hn16).
    destruct (Z.eq_dec n 0) as [->|Hz].
    + exists 0. split; [vm_compute; reflexivity|]. vm_compute. discriminate.
    + eexists. split; [reflexivity|]. apply weiValue_accuracy. lia.
  - intros k ->. apply whole_coins.
    change (10 ^ 18) with 1000000000000000000 in *. lia.
Qed.

Lemma round_trip_at_18_decimals_witness :
  formatBigIntToDecimal (2 * 10 ^ 18) 18 = Done "2.000000000000000000"%string /\
  roundTrip_eth Scenario.amd64 (2 * 10 ^ 18) = Some (2 * 10 ^ 18) /\
  roundTrip_token (2 * 10 ^ 18) 18 = Some (2 * 10 ^ 18).
Proof.
  destruct (round_trip_at_18_decimals Scenario.amd64 (2 * 10 ^ 18))
    as (Hf & _ & Hk).
  - split; apply Zle_bool_imp_le; reflexivity.
  - split; [exact Hf | exact (Hk 2 eq_refl)].
Defined.

End RoundTrip.
